(** * torchelastic.distributed.app.api: role fan-out and [wait_all]

    A shallow embedding of [src/torchelastic/distributed/app/api.py].

    The module talks to two collaborators that live outside the
    repository: [torch.distributed.rpc] (the transport: [get_rpc_timeout],
    [rpc_async], [remote]) and [torch.futures.Future] ([wait]).  Their
    replies, a value or an exception each, are parameters of the
    development (class [Transport]); the
    calls the module makes to them are recorded, in program order, in a
    log that every operation threads through.  Python exceptions are the
    [Raise] branch of [result]. *)

From stdpp Require Import gmap strings list.

Set Default Proof Using "Type".

(** ** Python exceptions *)

Inductive exn :=
| AttributeError (obj attr : string)   (* 'obj' object has no attribute 'attr' *)
| RpcError (cause : string)            (* an error surfaced by torch.distributed.rpc *)
| RpcTimeout.                          (* the error a timed-out call completes with *)

Inductive result (A : Type) :=
| Ok (a : A)
| Raise (e : exn).
Arguments Ok {A} a.
Arguments Raise {A} e.

(** ** [dict]: a Python dictionary

    Insertion ordered, and [d[k] = v] on a key already present replaces the
    value where the key stands. *)

Module Dict.

Definition t (V : Type) := list (string * V).

Definition empty {V} : t V := [].

Fixpoint set {V} (d : t V) (k : string) (v : V) : t V :=
  match d with
  | [] => [(k, v)]
  | (k', v') :: d' =>
      if decide (k' = k) then (k', v) :: d' else (k', v') :: set d' k v
  end.

Fixpoint get {V} (d : t V) (k : string) : option V :=
  match d with
  | [] => None
  | (k', v') :: d' => if decide (k' = k) then Some v' else get d' k
  end.

Definition items {V} (d : t V) : list (string * V) := d.
Definition keys {V} (d : t V) : list string := d.*1.
Definition values {V} (d : t V) : list V := d.*2.

(** What a dictionary object satisfies: no key twice. *)
Definition wf {V} (d : t V) : Prop := NoDup (keys d).

End Dict.

(** The keys of a dictionary filled by storing under [names] in turn. *)
Definition add_key (ks : list string) (k : string) : list string :=
  if decide (k ∈ ks) then ks else ks ++ [k].

(** ** The records of the module *)

Module WorkerInfo.
Record t := mk {
  name : string;     (* same as torch.distributed.rpc.WorkerInfo.name *)
  id : Z;            (* torch rpc id *)
  rank : Z;          (* global rank *)
  role_rank : Z;     (* role rank *)
}.
End WorkerInfo.

Module RoleInfo.
Record t := mk {
  name : string;
  role_world_size : Z;
  local_world_size : Z;
  worker_infos : list WorkerInfo.t;
}.
End RoleInfo.

(** ** The collaborators *)

(** The Python values the module only passes along. *)
Class Payload := {
  Value : Type;     (* what a remote call returns *)
  Func : Type;      (* the callable sent to the workers *)
  Args : Type;
  Kwargs : Type;
  Timeout : Type;   (* seconds, as torch.distributed.rpc takes them *)
  RRef : Type;      (* torch.distributed.rpc.RRef *)
}.

(** A [torch.futures.Future], by the state it completes in: [wait] blocks
    until then. *)
Inductive Future {P : Payload} :=
| Resolved (v : Value)
| Failed (e : exn)
| TimedOut.

(** The calls made to the collaborators. *)
Inductive event {P : Payload} :=
| EvGetRpcTimeout
| EvRpcAsync (to : string) (func : Func) (args : option Args)
    (kwargs : option Kwargs) (timeout : Timeout)
| EvRemote (to : string) (func : Func) (args : option Args)
    (kwargs : option Kwargs)
| EvWait (fut : Future).

(** The transport's replies; each may depend on everything that was asked
    of it before. *)
Class Transport {P : Payload} := {
  rpc_timeout_reply : list event → result Timeout;
  rpc_async_reply : list event → string → Func → option Args →
                    option Kwargs → Timeout → result Future;
  remote_reply : list event → string → Func → option Args →
                 option Kwargs → result RRef;
}.

(** ** Programs: a log of collaborator calls and an exception or a value *)

Definition M {P : Payload} (A : Type) : Type :=
  list event → list event * result A.

Definition ret {P : Payload} {A} (a : A) : M A := λ h, (h, Ok a).

Definition raise {P : Payload} {A} (e : exn) : M A := λ h, (h, Raise e).

Definition bind {P : Payload} {A B} (m : M A) (k : A → M B) : M B :=
  λ h, match m h with
       | (h', Ok a) => k a h'
       | (h', Raise e) => (h', Raise e)
       end.

Notation "x <- m ;; k" := (bind m (λ x, k))
  (at level 100, m at next level, right associativity,
   format "x  <-  m  ;;  '/' k").

(** [for x in xs: acc = body x acc] *)
Fixpoint for_in {P : Payload} {A S} (xs : list A) (body : A → S → M S) (acc : S)
  : M S :=
  match xs with
  | [] => ret acc
  | x :: xs' => acc' <- body x acc ;; for_in xs' body acc'
  end.

(** The log after a program ran from the log [h], and what it returned. *)
Definition run_log {P : Payload} {A} (m : M A) (h : list event)
  : list event := (m h).1.

Definition run_result {P : Payload} {A} (m : M A) (h : list event)
  : result A := (m h).2.

Section Api.
Context {P : Payload} {T : Transport}.

(** *** Collaborator calls *)

(** [torch_rpc.get_rpc_timeout()] *)
Definition get_rpc_timeout : M Timeout :=
  λ h, (h ++ [EvGetRpcTimeout], rpc_timeout_reply h).

(** [torch_rpc.rpc_async(name, func, args, kwargs, timeout)] *)
Definition rpc_async (name : string) (func : Func) (args : option Args)
    (kwargs : option Kwargs) (timeout : Timeout) : M Future :=
  λ h, (h ++ [EvRpcAsync name func args kwargs timeout],
        rpc_async_reply h name func args kwargs timeout).

(** [torch_rpc.remote(name, func, args, kwargs)] *)
Definition remote (name : string) (func : Func) (args : option Args)
    (kwargs : option Kwargs) : M RRef :=
  λ h, (h ++ [EvRemote name func args kwargs],
        remote_reply h name func args kwargs).

(** [fut.wait()]: the value of a resolved future, the stored error of a
    failed one. *)
Definition wait (fut : Future) : M Value :=
  λ h, (h ++ [EvWait fut],
        match fut with
        | Resolved v => Ok v
        | Failed e => Raise e
        | TimedOut => Raise RpcTimeout
        end).

(** *** Info accessors

    [get_role_info] is the role directory of the module, and the one place
    the other functions learn the members of a role from.  Their bodies
    are written over a directory [get_role_info] they are given
    ([get_worker_names_from], [rpc_async_on_role_from], ...); the
    functions of the module are these bodies at the module's
    [get_role_info]. *)

Definition get_role_info (role : string) : M RoleInfo.t :=
  ret (RoleInfo.mk role 0 0 []).

Definition get_worker_names_from (get_role_info : string → M RoleInfo.t)
    (role : string) : M (list string) :=
  info <- get_role_info role ;;
  ret (WorkerInfo.name <$> RoleInfo.worker_infos info).

Definition get_worker_names (role : string) : M (list string) :=
  get_worker_names_from get_role_info role.

Definition get_all_roles : M (list string) := ret [].

(** *** Futures *)

(** The argument of [wait_all]: a [dict] of futures, or a list of them. *)
Inductive FutureSet :=
| Keyed (d : Dict.t Future)
| Sequence (l : list Future).

Inductive Results :=
| KeyedResults (d : Dict.t Value)
| SequenceResults (l : list Value).

(** [futures.items()] where [futures] is a list. *)
Definition list_items (l : list Future) : M (list Future) :=
  raise (AttributeError "list" "items").

Definition wait_all (futures : FutureSet) : M Results :=
  match futures with
  | Keyed d =>
      results <- for_in (Dict.items d)
                  (λ '(name, fut) results,
                     v <- wait fut ;; ret (Dict.set results name v))
                  Dict.empty ;;
      ret (KeyedResults results)
  | Sequence l =>
      its <- list_items l ;;
      results <- for_in its
                  (λ fut results, v <- wait fut ;; ret (results ++ [v]))
                  [] ;;
      ret (SequenceResults results)
  end.

(** *** RPC APIs *)

Definition rpc_async_on_role_from (get_role_info : string → M RoleInfo.t)
    (role : string) (func : Func)
    (args : option Args) (kwargs : option Kwargs)
    (timeout : option Timeout) : M (Dict.t Future) :=
  timeout <- match timeout with
            | None => get_rpc_timeout
            | Some t => ret t
            end ;;
  names <- get_worker_names_from get_role_info role ;;
  for_in names
    (λ name futures,
       fut <- rpc_async name func args kwargs timeout ;;
       ret (Dict.set futures name fut))
    Dict.empty.

Definition rpc_async_on_role (role : string) (func : Func)
    (args : option Args) (kwargs : option Kwargs)
    (timeout : option Timeout) : M (Dict.t Future) :=
  rpc_async_on_role_from get_role_info role func args kwargs timeout.

Definition rpc_sync_on_role_from (get_role_info : string → M RoleInfo.t)
    (role : string) (func : Func)
    (args : option Args) (kwargs : option Kwargs)
    (timeout : option Timeout) : M Results :=
  futs <- rpc_async_on_role_from get_role_info role func args kwargs
            timeout ;;
  wait_all (Keyed futs).

Definition rpc_sync_on_role (role : string) (func : Func)
    (args : option Args) (kwargs : option Kwargs)
    (timeout : option Timeout) : M Results :=
  rpc_sync_on_role_from get_role_info role func args kwargs timeout.

Definition remote_on_role_from (get_role_info : string → M RoleInfo.t)
    (role : string) (func : Func)
    (args : option Args) (kwargs : option Kwargs) : M (Dict.t RRef) :=
  names <- get_worker_names_from get_role_info role ;;
  for_in names
    (λ name rrefs,
       rref <- remote name func args kwargs ;;
       ret (Dict.set rrefs name rref))
    Dict.empty.

Definition remote_on_role (role : string) (func : Func)
    (args : option Args) (kwargs : option Kwargs) : M (Dict.t RRef) :=
  remote_on_role_from get_role_info role func args kwargs.

End Api.

(** The two fan-out loops, over any list of worker names. *)
Abbreviation rpc_async_loop names func args kwargs timeout :=
  (for_in names
     (λ name futures,
        fut <- rpc_async name func args kwargs timeout ;;
        ret (Dict.set futures name fut))).

Abbreviation remote_loop names func args kwargs :=
  (for_in names
     (λ name rrefs,
        rref <- remote name func args kwargs ;;
        ret (Dict.set rrefs name rref))).

Abbreviation wait_loop items :=
  (for_in items
     (λ '(name, fut) results,
        v <- wait fut ;; ret (Dict.set results name v))).

(** A fan-out loop in general: one [call] per name, its answer stored under
    the name. *)
Definition fan_out {P : Payload} {X} (call : string → M X) (names : list string)
  : Dict.t X → M (Dict.t X) :=
  for_in names (λ name acc, x <- call name ;; ret (Dict.set acc name x)).

(** ** Vocabulary of the specification *)

(** The error a future that did not resolve holds. *)
Definition stored_error {P : Payload} (fut : Future) : option exn :=
  match fut with
  | Resolved _ => None
  | Failed e => Some e
  | TimedOut => Some RpcTimeout
  end.

Definition resolved_value {P : Payload} (fut : Future) : option Value :=
  match fut with
  | Resolved v => Some v
  | _ => None
  end.

(** The entries of a keyed future set that failed or timed out, with their
    causes, and the ones that resolved, with their values. *)
Definition failed_entries {P : Payload} (d : Dict.t Future)
  : list (string * exn) :=
  omap (λ '(k, fut), pair k <$> stored_error fut) d.

Definition resolved_entries {P : Payload} (d : Dict.t Future)
  : list (string * Value) :=
  omap (λ '(k, fut), pair k <$> resolved_value fut) d.

(** A keyed future set whose entries all resolved, from the values. *)
Definition all_resolved {P : Payload} (r : Dict.t Value) : Dict.t Future :=
  prod_map id Resolved <$> r.

(** The [rpc_async] calls in a log. *)
Definition is_rpc_async {P : Payload} (ev : event) : bool :=
  match ev with
  | EvRpcAsync _ _ _ _ _ => true
  | _ => false
  end.

Definition dispatches {P : Payload} (h : list event) : list event :=
  List.filter is_rpc_async h.

(** What a composite error would be: an exception that can be read for
    [obs] of the future set it comes from, whenever an entry of the set
    failed or timed out. *)
Definition raised_error_tells {P : Payload} {A}
    (obs : Dict.t Future → A) : Prop :=
  ∃ report : exn → A,
    ∀ (d : Dict.t Future) (h : list event),
      Dict.wf d → failed_entries d ≠ [] →
      ∃ e, run_result (wait_all (Keyed d)) h = Raise e ∧ report e = obs d.

(** [call_sync] as the specification words it: [wait_all] applied to what
    [call_async] returns, and nothing when [call_async] fails. *)
Definition call_sync_spec {P : Payload} {T : Transport}
    (role : string) (func : Func) (args : option Args) (kwargs : option Kwargs) (timeout : option Timeout)
    (h : list event) : list event * result Results :=
  let '(h1, r) := rpc_async_on_role role func args kwargs timeout h in
  match r with
  | Ok futs => wait_all (Keyed futs) h1
  | Raise e => (h1, Raise e)
  end.

(** ** A small deployment to evaluate the module on

    Workers "w2", "w3" and "w4"; the remote function "echo" answers 42
    and the transport's timeout is 60 seconds. *)

Definition demo_payload : Payload := {|
  Value := Z;
  Func := string;
  Args := list Z;
  Kwargs := list (string * Z);
  Timeout := Z;
  RRef := string;
|}.

(** Every worker answers. *)
Definition all_alive : @Transport demo_payload :=
  @Build_Transport demo_payload
    (λ _, Ok 60%Z)
    (λ _ _ _ _ _ _, Ok (@Resolved demo_payload 42%Z))
    (λ _ to _ _ _, Ok to).

(** [w3] cannot be reached: the transport raises when asked to call it. *)
Definition w3_unreachable : @Transport demo_payload :=
  @Build_Transport demo_payload
    (λ _, Ok 60%Z)
    (λ _ to _ _ _ _,
       if decide (to = "w3") then Raise (RpcError "unreachable")
       else Ok (@Resolved demo_payload 42%Z))
    (λ _ to _ _ _,
       if decide (to = "w3") then Raise (RpcError "unreachable")
       else Ok to).

(** [w3] is called, and its call fails: the transport returns a future
    that holds the error. *)
Definition w3_fails : @Transport demo_payload :=
  @Build_Transport demo_payload
    (λ _, Ok 60%Z)
    (λ _ to _ _ _ _,
       if decide (to = "w3")
       then Ok (@Failed demo_payload (RpcError "unreachable"))
       else Ok (@Resolved demo_payload 42%Z))
    (λ _ to _ _ _, Ok to).

(** The log at which [rpc_async_on_role] reads the role directory: the
    transport was asked for its timeout before, when none was given. *)
Definition after_timeout {P : Payload} (timeout : option Timeout)
    (h : list event) : list event :=
  match timeout with
  | None => h ++ [EvGetRpcTimeout]
  | Some _ => h
  end.

(** A role directory with members: "w0", "w1" train, "w2", "w3" serve the
    parameters. *)
Definition demo_directory {P : Payload} (role : string) : M RoleInfo.t :=
  ret (if decide (role = "trainer") then
         RoleInfo.mk role 2 2
           [WorkerInfo.mk "w0" 0 0 0; WorkerInfo.mk "w1" 1 1 1]
       else if decide (role = "ps") then
         RoleInfo.mk role 2 2
           [WorkerInfo.mk "w2" 2 2 0; WorkerInfo.mk "w3" 3 3 1]
       else RoleInfo.mk role 0 0 []).

(** RPC was not initialised: the transport has no timeout to give. *)
Definition rpc_not_initialised : @Transport demo_payload :=
  @Build_Transport demo_payload
    (λ _, Raise (RpcError "RPC has not been initialized"))
    (λ _ _ _ _ _ _, Raise (RpcError "RPC has not been initialized"))
    (λ _ _ _ _ _, Raise (RpcError "RPC has not been initialized")).

(** ** The other functions of the module *)

(** The body of [rpc_sync_on_role], over any list of worker names. *)
Abbreviation rpc_sync_loop names func args kwargs timeout :=
  (futs <- rpc_async_loop names func args kwargs timeout Dict.empty ;;
   wait_all (Keyed futs)).

(** The events of a log from the log [h] it started from. *)
Definition new_events {E} (h h' : list E) : list E := drop (length h) h'.

(** *** [init_rpc]

    Its collaborators are [backend_registry.construct_rpc_backend_options],
    [utils.get_env_variable_or_raise], the builtin [int],
    [dist_autograd._init] and [api._init_rpc_backend]; what each answers,
    a value or an exception, is a parameter. *)

Class Boot := {
  Backend : Type;          (* torch_rpc.backend_registry.BackendType *)
  BackendOptions : Type;   (* torch_rpc.RpcBackendOptions *)
  Store : Type;
  BootExc : Type;          (* the exceptions the collaborators raise *)
}.

Inductive boot_event {B : Boot} :=
| EvConstructOptions (backend : Backend)
| EvGetEnv (name : string)
| EvAutogradInit (rank : Z)
| EvInitRpcBackend (backend : Backend) (store : Store) (name : string)
    (rank world_size : Z) (options : BackendOptions).

Class BootWorld {B : Boot} := {
  construct_options_reply : list boot_event → Backend →
                            BootExc + BackendOptions;
  get_env_reply : list boot_event → string → BootExc + string;
  int_reply : string → BootExc + Z;
  autograd_init_reply : list boot_event → Z → BootExc + unit;
  init_rpc_backend_reply : list boot_event → Backend → Store → string →
                           Z → Z → BackendOptions → BootExc + unit;
}.

Definition BM {B : Boot} (A : Type) : Type :=
  list boot_event → list boot_event * (BootExc + A).

Definition bret {B : Boot} {A} (a : A) : BM A := λ h, (h, inr a).

Definition bbind {B : Boot} {A C} (m : BM A) (k : A → BM C) : BM C :=
  λ h, match m h with
       | (h', inr a) => k a h'
       | (h', inl e) => (h', inl e)
       end.

Notation "x <~ m ;; k" := (bbind m (λ x, k))
  (at level 100, m at next level, right associativity,
   format "x  <~  m  ;;  '/' k").

Section Init.
Context {B : Boot} {W : BootWorld}.

(** [backend_registry.construct_rpc_backend_options(backend)] *)
Definition construct_rpc_backend_options (backend : Backend)
  : BM BackendOptions :=
  λ h, (h ++ [EvConstructOptions backend], construct_options_reply h backend).

(** [utils.get_env_variable_or_raise(name)] *)
Definition get_env_variable_or_raise (name : string) : BM string :=
  λ h, (h ++ [EvGetEnv name], get_env_reply h name).

(** [int(s)] *)
Definition int (s : string) : BM Z := λ h, (h, int_reply s).

(** [dist_autograd._init(rank)] *)
Definition autograd_init (rank : Z) : BM unit :=
  λ h, (h ++ [EvAutogradInit rank], autograd_init_reply h rank).

(** [api._init_rpc_backend(backend, store, name, rank, world_size,
    backend_options)] *)
Definition init_rpc_backend (backend : Backend) (store : Store)
    (name : string) (rank world_size : Z) (backend_options : BackendOptions)
  : BM unit :=
  λ h, (h ++ [EvInitRpcBackend backend store name rank world_size
                backend_options],
        init_rpc_backend_reply h backend store name rank world_size
          backend_options).

(** [backend_options] is [None] or an options object; [not backend_options]
    holds of [None] only. *)
Definition init_rpc (name : string) (backend : Backend)
    (backend_options : option BackendOptions) (store : Store) : BM unit :=
  backend_options <~ match backend_options with
                     | None => construct_rpc_backend_options backend
                     | Some o => bret o
                     end ;;
  rank_s <~ get_env_variable_or_raise "RANK" ;;
  rank <~ int rank_s ;;
  world_size_s <~ get_env_variable_or_raise "WORLD_SIZE" ;;
  world_size <~ int world_size_s ;;
  _ <~ autograd_init rank ;;
  _ <~ init_rpc_backend backend store name rank world_size backend_options ;;
  bret ().

End Init.

(** What [init_rpc] does once it has its backend options. *)
Definition init_rpc_with {B : Boot} {W : BootWorld} (name : string)
    (backend : Backend) (options : BackendOptions) (store : Store)
  : BM unit :=
  rank_s <~ get_env_variable_or_raise "RANK" ;;
  rank <~ int rank_s ;;
  world_size_s <~ get_env_variable_or_raise "WORLD_SIZE" ;;
  world_size <~ int world_size_s ;;
  _ <~ autograd_init rank ;;
  _ <~ init_rpc_backend backend store name rank world_size options ;;
  bret ().

(** [int(utils.get_env_variable_or_raise(var))] at the log [h]: the integer
    it gives, or the exception it raises, from the lookup or from [int]. *)
Definition env_int {B : Boot} {W : BootWorld} (h : list boot_event)
    (var : string) (z : Z) : Prop :=
  ∃ s, get_env_reply h var = inr s ∧ int_reply s = inr z.

Definition env_int_fails {B : Boot} {W : BootWorld} (h : list boot_event)
    (var : string) (e : BootExc) : Prop :=
  get_env_reply h var = inl e
  ∨ ∃ s, get_env_reply h var = inr s ∧ int_reply s = inl e.

(** The events of the first step of [init_rpc]: default options are
    constructed when none are given. *)
Definition options_events {B : Boot} (backend : Backend)
    (backend_options : option BackendOptions) : list boot_event :=
  match backend_options with
  | Some _ => []
  | None => [EvConstructOptions backend]
  end.

(** *** [init_app], [init_process_group] *)

Definition init_app {P : Payload} {B : Boot} (role : string)
    (backend : Backend) (backend_options : BackendOptions) : M unit :=
  ret ().

Definition init_process_group {P : Payload} : M unit := ret ().

(** The init events of a log. *)
Definition is_init {B : Boot} (ev : boot_event) : bool :=
  match ev with
  | EvAutogradInit _ | EvInitRpcBackend _ _ _ _ _ _ => true
  | _ => false
  end.

(** A start-up to evaluate [init_rpc] on: rank 0 of 4. *)
Definition demo_boot : Boot := {|
  Backend := string;
  BackendOptions := string;
  Store := string;
  BootExc := string;
|}.

Definition demo_int (s : string) : string + Z :=
  if decide (s = "0") then inr 0%Z
  else if decide (s = "4") then inr 4%Z
  else inl "invalid literal for int()".

Definition rank0_of_4 : @BootWorld demo_boot :=
  @Build_BootWorld demo_boot
    (λ _ _, inr "default options")
    (λ _ name,
       if decide (name = "RANK") then inr "0"
       else if decide (name = "WORLD_SIZE") then inr "4"
       else inl "not set")
    demo_int
    (λ _ _, inr ())
    (λ _ _ _ _ _ _ _, inr ()).

(** The same start-up with [WORLD_SIZE] not set. *)
Definition no_world_size : @BootWorld demo_boot :=
  @Build_BootWorld demo_boot
    (λ _ _, inr "default options")
    (λ _ name, if decide (name = "RANK") then inr "0" else inl "not set")
    demo_int
    (λ _ _, inr ())
    (λ _ _ _ _ _ _ _, inr ()).

(** ** Dictionaries *)

Section DictFacts.
Context {V : Type}.
Implicit Types (d : Dict.t V) (k : string) (v : V).

Lemma dict_keys_set d k v :
  Dict.keys (Dict.set d k v) =
    if decide (k ∈ Dict.keys d) then Dict.keys d else Dict.keys d ++ [k].
Proof.
  unfold Dict.keys. induction d as [|[k' v'] d IH]; [done|].
  cbn [Dict.set]. destruct (decide (k' = k)) as [->|Hne].
  - rewrite !fmap_cons. cbn [fst]. rewrite decide_True; [done | set_solver].
  - rewrite !fmap_cons. cbn [fst]. rewrite IH.
    destruct (decide (k ∈ d.*1)).
    + rewrite decide_True; [done | set_solver].
    + rewrite decide_False; [done | set_solver].
Qed.

Lemma dict_set_fresh d k v :
  k ∉ Dict.keys d → Dict.set d k v = d ++ [(k, v)].
Proof.
  unfold Dict.keys. induction d as [|[k' v'] d IH]; simpl; [done|].
  intros Hk. destruct (decide (k' = k)) as [->|Hne]; [set_solver|].
  rewrite IH; [done | set_solver].
Qed.

Lemma dict_get_set_eq d k v : Dict.get (Dict.set d k v) k = Some v.
Proof.
  induction d as [|[k' v'] d IH]; simpl.
  - by rewrite decide_True.
  - destruct (decide (k' = k)) as [->|Hne]; simpl.
    + by rewrite decide_True.
    + by rewrite decide_False.
Qed.

(** Storing fresh keys one after the other appends them. *)
Lemma dict_set_all_fresh (r d : Dict.t V) :
  NoDup (Dict.keys d ++ Dict.keys r) →
  foldl (λ acc '(k, v), Dict.set acc k v) d r = d ++ r.
Proof.
  revert d. induction r as [|[k v] r IH]; intros d Hnd; simpl.
  - by rewrite app_nil_r.
  - apply NoDup_app in Hnd as (Hd & Hdisj & Hr).
    apply NoDup_cons in Hr as [Hk Hr].
    rewrite dict_set_fresh; [|set_solver].
    rewrite IH; [by rewrite <-app_assoc|].
    unfold Dict.keys in *. rewrite fmap_app. simpl.
    apply NoDup_app. split_and!; [|set_solver|done].
    apply NoDup_app. split_and!; [done | set_solver | apply NoDup_singleton].
Qed.

End DictFacts.

Lemma add_keys_elem (names ks : list string) k :
  k ∈ foldl add_key ks names ↔ k ∈ ks ∨ k ∈ names.
Proof.
  revert ks. induction names as [|n names IH]; intros ks; simpl.
  - set_solver.
  - rewrite IH. unfold add_key. case_decide; set_solver.
Qed.

Lemma add_keys_NoDup (names ks : list string) :
  NoDup ks → NoDup (foldl add_key ks names).
Proof.
  revert ks. induction names as [|n names IH]; intros ks Hks; simpl; [done|].
  apply IH. unfold add_key. case_decide; [done|].
  apply NoDup_app. split_and!; [done | set_solver | apply NoDup_singleton].
Qed.

Lemma add_keys_fresh (names ks : list string) :
  NoDup (ks ++ names) → foldl add_key ks names = ks ++ names.
Proof.
  revert ks. induction names as [|n names IH]; intros ks Hnd; simpl.
  - by rewrite app_nil_r.
  - assert (n ∉ ks) as Hn.
    { apply NoDup_app in Hnd as (_ & Hdisj & _). intros Hin.
      apply (Hdisj n Hin). set_solver. }
    unfold add_key at 2. rewrite decide_False; [|done].
    rewrite IH; rewrite <-app_assoc; done.
Qed.

(** ** Programs *)

Section ProgramFacts.
Context {P : Payload}.

Lemma run_bind {A B} (m : M A) (k : A → M B) h :
(x <- m ;; k x) h =
  match m h with
  | (h', Ok a) => k a h'
  | (h', Raise e) => (h', Raise e)
  end.
Proof. reflexivity. Qed.

Lemma for_in_app {A S} (xs ys : list A) (body : A → S → M S) (acc : S) h :
for_in (xs ++ ys) body acc h =
  match for_in xs body acc h with
  | (h', Ok acc') => for_in ys body acc' h'
  | (h', Raise e) => (h', Raise e)
  end.
Proof.
revert acc h. induction xs as [|x xs IH]; intros acc h; [done|].
cbn [for_in app]. unfold bind.
destruct (body x acc h) as [h1 [acc1|e]]; [|done].
apply IH.
Qed.

Lemma fan_out_keys {X} (call : string → M X) names acc h h' d :
fan_out call names acc h = (h', Ok d) →
Dict.keys d = foldl add_key (Dict.keys acc) names.
Proof.
revert acc h. induction names as [|n names IH]; intros acc h.
- cbn. by intros [= _ ->].
- cbn [fan_out for_in foldl]. unfold bind at 1 2.
  destruct (call n h) as [h1 [x|e]]; [|done].
  unfold ret at 1. intros Hrun. apply IH in Hrun.
  by rewrite Hrun, dict_keys_set.
Qed.

Lemma fan_out_raise {X} (call : string → M X) pre n post acc h h1 d1 e :
fan_out call pre acc h = (h1, Ok d1) →
(call n h1).2 = Raise e →
fan_out call (pre ++ n :: post) acc h = ((call n h1).1, Raise e).
Proof.
intros Hpre Hn. unfold fan_out in *. rewrite for_in_app, Hpre.
cbn [for_in]. unfold bind.
destruct (call n h1) as [h2 r]. simpl in Hn. by subst r.
Qed.

Lemma fan_out_store {X} (call : string → M X) pre n acc h h1 d1 x :
fan_out call pre acc h = (h1, Ok d1) →
(call n h1).2 = Ok x →
fan_out call (pre ++ [n]) acc h = ((call n h1).1, Ok (Dict.set d1 n x)).
Proof.
intros Hpre Hn. unfold fan_out in *. rewrite for_in_app, Hpre.
cbn [for_in]. unfold bind.
destruct (call n h1) as [h2 r]. simpl in Hn. by subst r.
Qed.

End ProgramFacts.

(** ** [wait_all] *)

Section WaitAll.
Context {P : Payload}.
Implicit Types (h : list event) (d : Dict.t Future) (r acc : Dict.t Value).

(** Waiting on entries that all resolved: one [wait] each, in the order of
    the dictionary, every value stored under its key. *)
Lemma wait_loop_resolved r acc h :
  wait_loop (Dict.items (all_resolved r)) acc h =
    (h ++ (EvWait <$> Dict.values (all_resolved r)),
     Ok (foldl (λ acc '(k, v), Dict.set acc k v) acc r)).
Proof.
  revert acc h. induction r as [|[k v] r IH]; intros acc h.
  - cbn. by rewrite app_nil_r.
  - cbn. unfold bind, ret. cbn in IH. rewrite IH.
    by rewrite <-app_assoc.
Qed.

(** The loop stops at the first entry that did not resolve. *)
Lemma wait_loop_first_failure r k fut post e acc h :
  stored_error fut = Some e →
  wait_loop (Dict.items (all_resolved r ++ (k, fut) :: post)) acc h =
    (h ++ (EvWait <$> Dict.values (all_resolved r)) ++ [EvWait fut], Raise e).
Proof.
  intros Hfut. unfold Dict.items. rewrite for_in_app.
  pose proof (wait_loop_resolved r acc h) as Hr. unfold Dict.items in Hr.
  rewrite Hr. cbn [for_in]. unfold bind, wait. rewrite <-app_assoc.
  destruct fut; simplify_eq/=; done.
Qed.

(** [wait_all] calls nothing but [wait]. *)
Lemma wait_loop_log (items : list (string * Future)) acc h :
  ∃ futs, (wait_loop items acc h).1 = h ++ (EvWait <$> futs).
Proof.
  revert acc h. induction items as [|[k fut] items IH]; intros acc h.
  - exists []. cbn. by rewrite app_nil_r.
  - destruct fut as [v|e|]; cbn [for_in]; unfold bind, wait, ret.
    + destruct (IH (Dict.set acc k v) (h ++ [EvWait (Resolved v)]))
        as [futs Hfuts].
      exists (Resolved v :: futs). etrans; [exact Hfuts|].
      by rewrite <-app_assoc.
    + by exists [Failed e].
    + by exists [TimedOut].
Qed.

Lemma wait_all_log (futures : FutureSet) h :
  ∃ futs, run_log (wait_all futures) h = h ++ (EvWait <$> futs).
Proof.
  destruct futures as [d|l]; unfold run_log, wait_all.
  - destruct (wait_loop_log (Dict.items d) Dict.empty h) as [futs Hfuts].
    exists futs. rewrite run_bind.
    destruct (wait_loop (Dict.items d) Dict.empty h) as [h' [res|e]]; done.
  - exists []. cbn. by rewrite app_nil_r.
Qed.

(** A dictionary of futures that all resolved comes back as the dictionary
    of their values: same keys, same order. *)
Lemma wait_all_keyed_resolved r h :
  Dict.wf r →
  wait_all (Keyed (all_resolved r)) h =
    (h ++ (EvWait <$> Dict.values (all_resolved r)), Ok (KeyedResults r)).
Proof.
  intros Hr. unfold wait_all. rewrite run_bind, wait_loop_resolved.
  unfold ret. by rewrite (dict_set_all_fresh r Dict.empty).
Qed.

(** C1, as the code has it: when an entry of a keyed future set failed or
    timed out and every entry before it resolved, [wait_all] raises the
    error stored in that entry, the first one in the order of the
    dictionary, after waiting on the entries up to it and on no later one.
    Neither the other failures nor the resolved values are returned. *)
Theorem wait_all_raises_first_failure r k fut post e h :
  stored_error fut = Some e →
  wait_all (Keyed (all_resolved r ++ (k, fut) :: post)) h =
    (h ++ (EvWait <$> Dict.values (all_resolved r)) ++ [EvWait fut], Raise e).
Proof.
  intros Hfut. unfold wait_all.
  by rewrite run_bind, (wait_loop_first_failure r k fut post e).
Qed.

(** C2, the sequence branch: on a list of futures, whatever they hold,
    [wait_all] raises [AttributeError] from [futures.items()] before it
    waits on anything, instead of returning the list of the values. *)
Theorem wait_all_sequence_raises (l : list Future) h :
  wait_all (Sequence l) h = (h, Raise (AttributeError "list" "items")).
Proof. reflexivity. Qed.

(** C10: on the empty dictionary [wait_all] returns the empty dictionary;
    it waits on nothing and raises nothing. *)
Theorem wait_all_empty_mapping h :
  wait_all (Keyed Dict.empty) h = (h, Ok (KeyedResults Dict.empty)).
Proof. reflexivity. Qed.

End WaitAll.

(** ** The fan-out calls *)

Lemma dispatches_app {P : Payload} (h1 h2 : list event) :
  dispatches (h1 ++ h2) = dispatches h1 ++ dispatches h2.
Proof. apply List.filter_app. Qed.

Lemma dispatches_waits {P : Payload} (futs : list Future) :
  dispatches (EvWait <$> futs) = [].
Proof. induction futs as [|fut futs IH]; [done | exact IH]. Qed.

(** A fan-out loop whose [call] logs one event logs one event per name it
    reaches, in the order of the names. *)
Lemma fan_out_log {P : Payload} {X} (call : string → M X) (ev : string → event)
    names acc h :
  (∀ n h0, (call n h0).1 = h0 ++ [ev n]) →
  ∃ m, m ≤ length names ∧
       (fan_out call names acc h).1 = h ++ (ev <$> take m names).
Proof.
  intros Hcall. revert acc h.
  induction names as [|n names IH]; intros acc h.
  - exists 0. cbn. by rewrite app_nil_r.
  - unfold fan_out. cbn [for_in]. rewrite !run_bind.
    pose proof (Hcall n h) as Hn.
    destruct (call n h) as [h1 [x|e]]; simpl in Hn; subst h1.
    + destruct (IH (Dict.set acc n x) (h ++ [ev n])) as (m & Hm & Hlog).
      exists (S m). split; [simpl; lia|].
      unfold ret at 1. etrans; [exact Hlog|]. by rewrite <-app_assoc.
    + exists 1. split; [simpl; lia|]. by cbn.
Qed.

(** A fan-out loop that got to its end logged one event per name. *)
Lemma fan_out_log_ok {P : Payload} {X} (call : string → M X)
    (ev : string → event) names acc h h' d :
  (∀ n h0, (call n h0).1 = h0 ++ [ev n]) →
  fan_out call names acc h = (h', Ok d) →
  h' = h ++ (ev <$> names).
Proof.
  intros Hcall. revert acc h.
  induction names as [|n names IH]; intros acc h.
  - cbn. intros [= <- _]. by rewrite app_nil_r.
  - unfold fan_out. cbn [for_in]. rewrite !run_bind.
    pose proof (Hcall n h) as Hn.
    destruct (call n h) as [h1 [x|e]]; simpl in Hn; subst h1; [|done].
    unfold ret at 1. intros Hrun. apply IH in Hrun. subst h'.
    by rewrite <-app_assoc.
Qed.

Section FanOutCalls.
Context {P : Payload} {T : Transport}.
Implicit Types (h : list event) (role name : string) (func : Func)
  (args : option Args) (kwargs : option Kwargs).

Lemma get_worker_names_run role h :
  get_worker_names role h = (h, Ok []).
Proof. reflexivity. Qed.

(** With a timeout, [rpc_async_on_role] reads the names and runs its
    loop. *)
Lemma rpc_async_on_role_from_some info role func args kwargs t h :
  rpc_async_on_role_from info role func args kwargs (Some t) h =
    match get_worker_names_from info role h with
    | (h1, Ok names) =>
        rpc_async_loop names func args kwargs t Dict.empty h1
    | (h1, Raise e) => (h1, Raise e)
    end.
Proof. reflexivity. Qed.

(** Without one, it asks the transport first, and goes on with the answer
    or raises what the transport raised. *)
Lemma rpc_async_on_role_from_none info role func args kwargs h :
  rpc_async_on_role_from info role func args kwargs None h =
    match rpc_timeout_reply h with
    | Ok t =>
        rpc_async_on_role_from info role func args kwargs (Some t)
          (h ++ [EvGetRpcTimeout])
    | Raise e => (h ++ [EvGetRpcTimeout], Raise e)
    end.
Proof.
  unfold rpc_async_on_role_from. rewrite run_bind.
  unfold get_rpc_timeout at 1. by destruct (rpc_timeout_reply h).
Qed.

Lemma remote_on_role_from_run info role func args kwargs h :
  remote_on_role_from info role func args kwargs h =
    match get_worker_names_from info role h with
    | (h1, Ok names) => remote_loop names func args kwargs Dict.empty h1
    | (h1, Raise e) => (h1, Raise e)
    end.
Proof. reflexivity. Qed.

(** What [rpc_async_on_role] returns, it returns from its loop over the
    names read after the timeout was settled. *)
Lemma rpc_async_on_role_from_ok info role func args kwargs timeout h h' futs :
  rpc_async_on_role_from info role func args kwargs timeout h = (h', Ok futs) →
  ∃ t h1 names,
    get_worker_names_from info role (after_timeout timeout h)
    = (h1, Ok names)
    ∧ rpc_async_loop names func args kwargs t Dict.empty h1 = (h', Ok futs)
    ∧ match timeout with
      | Some t' => t = t'
      | None => rpc_timeout_reply h = Ok t
      end.
Proof.
  destruct timeout as [t|]; cbn [after_timeout].
  - rewrite rpc_async_on_role_from_some.
    destruct (get_worker_names_from info role h) as [h1 [names|e]];
      [|done].
    intros Hrun. by exists t, h1, names.
  - rewrite rpc_async_on_role_from_none.
    destruct (rpc_timeout_reply h) as [t|e]; [|done].
    rewrite rpc_async_on_role_from_some.
    destruct (get_worker_names_from info role (h ++ [EvGetRpcTimeout]))
      as [h1 [names|e]]; [|done].
    intros Hrun. by exists t, h1, names.
Qed.

(** The keys a fan-out loop leaves, from the names it ran over. *)
Lemma fan_out_key_set {X} (call : string → M X) names h h' (d : Dict.t X) :
  fan_out call names Dict.empty h = (h', Ok d) →
  list_to_set (Dict.keys d) =@{gset string} list_to_set names
  ∧ Dict.wf d
  ∧ (NoDup names →
     Dict.keys d = names ∧ length (Dict.items d) = length names).
Proof.
  intros Hrun. apply fan_out_keys in Hrun.
  change (Dict.keys Dict.empty) with (@nil string) in Hrun.
  split_and!.
  - apply set_eq. intros k. rewrite !elem_of_list_to_set, Hrun.
    rewrite add_keys_elem. set_solver.
  - unfold Dict.wf. rewrite Hrun. apply add_keys_NoDup, NoDup_nil_2.
  - intros Hnd. pose proof (add_keys_fresh names [] Hnd) as Hk.
    simpl in Hk. rewrite Hk in Hrun. split; [done|].
    unfold Dict.keys, Dict.items in *. by rewrite <-Hrun, length_fmap.
Qed.

(** Where the transport raises when asked to call a member, the loop of
    [rpc_async_on_role] raises that error: the calls to the members before
    it were made, their futures are lost, and no later member is called.
    Where the transport returns a future, already failed or not, the
    future is stored under the member's name. *)
Theorem rpc_async_on_role_dispatch_failure_propagates
    func args kwargs timeout pre name h h1 futs1 :
  rpc_async_loop pre func args kwargs timeout Dict.empty h = (h1, Ok futs1) →
  (∀ post e,
     rpc_async_reply h1 name func args kwargs timeout = Raise e →
     rpc_async_loop (pre ++ name :: post) func args kwargs timeout Dict.empty h
     = (h1 ++ [EvRpcAsync name func args kwargs timeout], Raise e))
  ∧ (∀ fut,
       rpc_async_reply h1 name func args kwargs timeout = Ok fut →
       rpc_async_loop (pre ++ [name]) func args kwargs timeout Dict.empty h
       = (h1 ++ [EvRpcAsync name func args kwargs timeout],
          Ok (Dict.set futs1 name fut))
       ∧ Dict.get (Dict.set futs1 name fut) name = Some fut).
Proof.
  intros Hpre. split.
  - intros post e He.
    apply (fan_out_raise (λ n, rpc_async n func args kwargs timeout)
             pre name post Dict.empty h h1 futs1 e Hpre He).
  - intros fut Hfut. split; [|apply dict_get_set_eq].
    apply (fan_out_store (λ n, rpc_async n func args kwargs timeout)
             pre name Dict.empty h h1 futs1 fut Hpre Hfut).
Qed.

(** C4, as the code has it: [get_role_info] never fails, and no fan-out
    call fails for an unknown role.  For every role name, declared or not,
    [get_role_info] returns a [RoleInfo] of that name with world sizes 0
    and no worker.  On that role [remote_on_role] and, given a timeout,
    [rpc_async_on_role] and [rpc_sync_on_role] return the empty dictionary
    and call nothing; given no timeout, the two ask the transport for its
    timeout, return the empty dictionary when it answers and raise its
    error when it raises. *)
Theorem get_role_info_never_fails role h :
  get_role_info role h = (h, Ok (RoleInfo.mk role 0 0 []))
  ∧ (∀ func args kwargs t,
       rpc_async_on_role role func args kwargs (Some t) h
       = (h, Ok Dict.empty)
       ∧ rpc_sync_on_role role func args kwargs (Some t) h
         = (h, Ok (KeyedResults Dict.empty)))
  ∧ (∀ func args kwargs,
       rpc_async_on_role role func args kwargs None h
       = (h ++ [EvGetRpcTimeout],
          match rpc_timeout_reply h with
          | Ok _ => Ok Dict.empty
          | Raise e => Raise e
          end)
       ∧ rpc_sync_on_role role func args kwargs None h
         = (h ++ [EvGetRpcTimeout],
            match rpc_timeout_reply h with
            | Ok _ => Ok (KeyedResults Dict.empty)
            | Raise e => Raise e
            end))
  ∧ (∀ func args kwargs,
       remote_on_role role func args kwargs h = (h, Ok Dict.empty)).
Proof.
  split_and!; [done | done | | done].
  intros func args kwargs. split.
  - unfold rpc_async_on_role. rewrite rpc_async_on_role_from_none.
    by destruct (rpc_timeout_reply h).
  - unfold rpc_sync_on_role, rpc_sync_on_role_from.
    rewrite run_bind, rpc_async_on_role_from_none.
    by destruct (rpc_timeout_reply h).
Qed.

(** C5: whenever [rpc_async_on_role] returns, the dictionary it returns
    has the worker names the role directory reported at the call as its
    keys: the same names as a set, no key twice, and, the names of the
    members of a role being distinct, one entry per member, in the order
    of the members.  This holds of the body of the function over any role
    directory, and so of the function of the module. *)
Theorem rpc_async_on_role_key_set :
  (∀ info role func args kwargs timeout h h' futs,
     rpc_async_on_role_from info role func args kwargs timeout h
     = (h', Ok futs) →
     ∃ h1 names,
       get_worker_names_from info role (after_timeout timeout h)
       = (h1, Ok names)
       ∧ list_to_set (Dict.keys futs) =@{gset string} list_to_set names
       ∧ Dict.wf futs
       ∧ (NoDup names →
          Dict.keys futs = names
          ∧ length (Dict.items futs) = length names))
  ∧ (∀ role func args kwargs timeout h h' futs,
       rpc_async_on_role role func args kwargs timeout h = (h', Ok futs) →
       ∃ names,
         run_result (get_worker_names role) (after_timeout timeout h)
         = Ok names
         ∧ Dict.keys futs = names
         ∧ length (Dict.items futs) = length names).
Proof.
  assert (∀ info role func args kwargs timeout h h' futs,
    rpc_async_on_role_from info role func args kwargs timeout h
    = (h', Ok futs) →
    ∃ h1 names,
      get_worker_names_from info role (after_timeout timeout h)
      = (h1, Ok names)
      ∧ list_to_set (Dict.keys futs) =@{gset string} list_to_set names
      ∧ Dict.wf futs
      ∧ (NoDup names →
         Dict.keys futs = names
         ∧ length (Dict.items futs) = length names)) as Hgen.
  { intros info role func args kwargs timeout h h' futs Hrun.
    apply rpc_async_on_role_from_ok in Hrun
      as (t & h1 & names & Hnames & Hloop & _).
    exists h1, names. split; [done|].
    by apply (fan_out_key_set (λ n, rpc_async n func args kwargs t)
                names h1 h' futs). }
  split; [exact Hgen|].
  intros role func args kwargs timeout h h' futs Hrun.
  destruct (Hgen get_role_info role func args kwargs timeout h h' futs Hrun)
    as (h1 & names & Hnames & _ & _ & Hnd).
  exists names.
  change (get_worker_names_from get_role_info role)
    with (get_worker_names role) in Hnames.
  unfold run_result. rewrite Hnames. split; [done|].
  apply Hnd. rewrite get_worker_names_run in Hnames.
  injection Hnames as _ <-. apply NoDup_nil_2.
Qed.

(** C6: [rpc_sync_on_role] is [wait_all] applied to what
    [rpc_async_on_role] returns on the same arguments, log and result
    alike; the calls it makes to the workers are the ones
    [rpc_async_on_role] makes, no more. *)
Theorem rpc_sync_on_role_is_wait_all_of_async
    role func args kwargs timeout h :
  rpc_sync_on_role role func args kwargs timeout h
  = call_sync_spec role func args kwargs timeout h
  ∧ dispatches (run_log (rpc_sync_on_role role func args kwargs timeout) h)
    = dispatches (run_log (rpc_async_on_role role func args kwargs timeout) h).
Proof.
  unfold rpc_sync_on_role, rpc_sync_on_role_from, call_sync_spec, run_log.
  rewrite run_bind.
  change (rpc_async_on_role_from get_role_info role func args kwargs timeout)
    with (rpc_async_on_role role func args kwargs timeout).
  destruct (rpc_async_on_role role func args kwargs timeout h)
    as [h1 [futs|e]]; [|done].
  split; [done|].
  destruct (wait_all_log (Keyed futs) h1) as [ws Hws].
  unfold run_log in Hws. rewrite Hws, dispatches_app, dispatches_waits.
  by rewrite app_nil_r.
Qed.

(** C7: without a timeout, [rpc_async_on_role] asks the transport for its
    timeout, raises what the transport raises and runs on with the timeout
    the transport returned, as if given it.  With a timeout, given or
    obtained so, it calls [rpc_async] once per worker name the directory
    reported, in order, as far as it gets, every call with that timeout
    and the function and arguments it was given, and it calls nothing
    else; it returns only after calling every worker.  So whatever holds
    of the timeout the transport returns, that it is finite, holds of the
    timeout of every call.  This holds of the body of the function over
    any role directory, and so of the function of the module. *)
Theorem rpc_async_on_role_timeout :
  (∀ info role func args kwargs h,
     rpc_async_on_role_from info role func args kwargs None h
     = match rpc_timeout_reply h with
       | Ok t =>
           rpc_async_on_role_from info role func args kwargs (Some t)
             (h ++ [EvGetRpcTimeout])
       | Raise e => (h ++ [EvGetRpcTimeout], Raise e)
       end)
  ∧ (∀ info role func args kwargs t h h1 names,
       get_worker_names_from info role h = (h1, Ok names) →
       ∃ m, m ≤ length names
            ∧ run_log (rpc_async_on_role_from info role func args kwargs
                         (Some t)) h
              = h1 ++ ((λ name, EvRpcAsync name func args kwargs t)
                         <$> take m names)
            ∧ (∀ futs,
                 run_result (rpc_async_on_role_from info role func args
                               kwargs (Some t)) h = Ok futs →
                 m = length names))
  ∧ (∀ (finite : Timeout → Prop) info role func args kwargs h t0 h1 names,
       rpc_timeout_reply h = Ok t0 → finite t0 →
       get_worker_names_from info role (h ++ [EvGetRpcTimeout])
       = (h1, Ok names) →
       ∃ m, m ≤ length names
            ∧ run_log (rpc_async_on_role_from info role func args kwargs
                         None) h
              = h1 ++ ((λ name, EvRpcAsync name func args kwargs t0)
                         <$> take m names)
            ∧ ∀ to f a k t,
                EvRpcAsync to f a k t
                  ∈ ((λ name, EvRpcAsync name func args kwargs t0)
                       <$> take m names) →
                t = t0 ∧ finite t)
  ∧ (∀ role func args kwargs h,
       rpc_async_on_role role func args kwargs None h
       = match rpc_timeout_reply h with
         | Ok t =>
             rpc_async_on_role role func args kwargs (Some t)
               (h ++ [EvGetRpcTimeout])
         | Raise e => (h ++ [EvGetRpcTimeout], Raise e)
         end).
Proof.
  assert (∀ info role func args kwargs t h h1 names,
    get_worker_names_from info role h = (h1, Ok names) →
    ∃ m, m ≤ length names
         ∧ run_log (rpc_async_on_role_from info role func args kwargs
                      (Some t)) h
           = h1 ++ ((λ name, EvRpcAsync name func args kwargs t)
                      <$> take m names)
         ∧ (∀ futs,
              run_result (rpc_async_on_role_from info role func args
                            kwargs (Some t)) h = Ok futs →
              m = length names)) as Hsome.
  { intros info role func args kwargs t h h1 names Hnames.
    unfold run_log, run_result.
    rewrite rpc_async_on_role_from_some, Hnames.
    destruct (fan_out_log (λ n, rpc_async n func args kwargs t)
                (λ n, EvRpcAsync n func args kwargs t)
                names Dict.empty h1) as (m & Hm & Hlog); [done|].
    unfold fan_out in Hlog.
    destruct (rpc_async_loop names func args kwargs t Dict.empty h1)
      as [h2 [futs|e]] eqn:Hloop.
    - exists (length names). split; [done|].
      apply (fan_out_log_ok (λ n, rpc_async n func args kwargs t)
               (λ n, EvRpcAsync n func args kwargs t)) in Hloop; [|done].
      rewrite firstn_all. by split.
    - exists m. by split_and!. }
  split_and!.
  - apply rpc_async_on_role_from_none.
  - exact Hsome.
  - intros finite info role func args kwargs h t0 h1 names Ht0 Hfin Hnames.
    destruct (Hsome info role func args kwargs t0 _ h1 names Hnames)
      as (m & Hm & Hlog & _).
    exists m. split; [done|]. split.
    + unfold run_log in *.
      by rewrite rpc_async_on_role_from_none, Ht0.
    + intros to f a k t Hin.
      apply list_elem_of_fmap in Hin as (n & [= _ _ _ _ ->] & _). done.
  - intros role func args kwargs h. apply rpc_async_on_role_from_none.
Qed.

(** C8: [get_role_info] answers the same for the same role at any two
    points of a run, whatever was called in between, and it returns. *)
Theorem get_role_info_idempotent role h1 h2 :
  run_result (get_role_info role) h1 = run_result (get_role_info role) h2
  ∧ (∃ info, run_result (get_role_info role) h1 = Ok info)
  ∧ run_log (get_role_info role) h1 = h1.
Proof. split_and!; [done | by eexists | done]. Qed.

(** C9: whenever [remote_on_role] and [rpc_async_on_role] return, each
    returns a dictionary keyed by the worker names the role directory
    reported at its call; the directory reporting the same names at both,
    the two dictionaries have the same keys in the same order.  This holds
    of the bodies of the functions over any role directory, and so of the
    functions of the module, whose directory reports the same names at
    every call. *)
Theorem remote_on_role_same_keys :
  (∀ info role func args kwargs timeout func' args' kwargs'
     h h' futs g g' rrefs,
     rpc_async_on_role_from info role func args kwargs timeout h
     = (h', Ok futs) →
     remote_on_role_from info role func' args' kwargs' g = (g', Ok rrefs) →
     ∃ h1 g1 names names',
       get_worker_names_from info role (after_timeout timeout h)
       = (h1, Ok names)
       ∧ get_worker_names_from info role g = (g1, Ok names')
       ∧ list_to_set (Dict.keys futs) =@{gset string} list_to_set names
       ∧ list_to_set (Dict.keys rrefs) =@{gset string} list_to_set names'
       ∧ (names' = names → Dict.keys rrefs = Dict.keys futs))
  ∧ (∀ role func args kwargs timeout func' args' kwargs'
       h h' futs g g' rrefs,
       rpc_async_on_role role func args kwargs timeout h = (h', Ok futs) →
       remote_on_role role func' args' kwargs' g = (g', Ok rrefs) →
       Dict.keys rrefs = Dict.keys futs
       ∧ Ok (Dict.keys futs) = run_result (get_worker_names role) g).
Proof.
  assert (∀ info role func args kwargs timeout func' args' kwargs'
            h h' futs g g' rrefs,
    rpc_async_on_role_from info role func args kwargs timeout h
    = (h', Ok futs) →
    remote_on_role_from info role func' args' kwargs' g = (g', Ok rrefs) →
    ∃ h1 g1 names names',
      get_worker_names_from info role (after_timeout timeout h)
      = (h1, Ok names)
      ∧ get_worker_names_from info role g = (g1, Ok names')
      ∧ Dict.keys futs = foldl add_key [] names
      ∧ Dict.keys rrefs = foldl add_key [] names') as Hkeys.
  { intros info role func args kwargs timeout func' args' kwargs'
      h h' futs g g' rrefs Hasync Hremote.
    apply rpc_async_on_role_from_ok in Hasync
      as (t & h1 & names & Hnames & Hloop & _).
    rewrite remote_on_role_from_run in Hremote.
    destruct (get_worker_names_from info role g) as [g1 [names'|e]];
      [|done].
    exists h1, g1, names, names'. split_and!; [done | done | |].
    - by apply (fan_out_keys (λ n, rpc_async n func args kwargs t))
        in Hloop.
    - by apply (fan_out_keys (λ n, remote n func' args' kwargs'))
        in Hremote. }
  split.
  - intros info role func args kwargs timeout func' args' kwargs'
      h h' futs g g' rrefs Hasync Hremote.
    destruct (Hkeys _ _ _ _ _ _ _ _ _ _ _ _ _ _ _ Hasync Hremote)
      as (h1 & g1 & names & names' & Hn & Hn' & Hk & Hk').
    exists h1, g1, names, names'. split_and!; [done | done | | |].
    + apply set_eq. intros k. rewrite !elem_of_list_to_set, Hk.
      rewrite add_keys_elem. set_solver.
    + apply set_eq. intros k. rewrite !elem_of_list_to_set, Hk'.
      rewrite add_keys_elem. set_solver.
    + intros ->. by rewrite Hk, Hk'.
  - intros role func args kwargs timeout func' args' kwargs'
      h h' futs g g' rrefs Hasync Hremote.
    destruct (Hkeys get_role_info role func args kwargs timeout
                func' args' kwargs' h h' futs g g' rrefs Hasync Hremote)
      as (h1 & g1 & names & names' & Hn & Hn' & Hk & Hk').
    change (get_worker_names_from get_role_info role)
      with (get_worker_names role) in Hn, Hn'.
    rewrite get_worker_names_run in Hn, Hn'.
    injection Hn as _ <-. injection Hn' as _ <-.
    by rewrite Hk, Hk'.
Qed.

End FanOutCalls.

(** ** The module on the small deployment *)

Section AllAlive.
#[local] Existing Instance demo_payload.
#[local] Existing Instance all_alive.

(** C4 fails on the code: nothing ever declared a role "evaluator", and
    [get_role_info] returns for it all the same, as do the fan-out calls,
    with a timeout and without. *)
Lemma get_role_info_undeclared_role_returns :
  get_role_info "evaluator" [] = ([], Ok (RoleInfo.mk "evaluator" 0 0 []))
  ∧ ¬ (∃ e, run_result (get_role_info "evaluator") [] = Raise e)
  ∧ rpc_async_on_role "evaluator" "echo" None None (Some 5%Z) []
    = ([], Ok Dict.empty)
  ∧ rpc_async_on_role "evaluator" "echo" None None None []
    = ([EvGetRpcTimeout], Ok Dict.empty)
  ∧ rpc_sync_on_role "evaluator" "echo" None None (Some 5%Z) []
    = ([], Ok (KeyedResults Dict.empty))
  ∧ ¬ (∃ e, run_result
              (rpc_async_on_role "evaluator" "echo" None None (Some 5%Z)) []
            = Raise e).
Proof.
  split_and!; [reflexivity | | reflexivity.. | ].
  - intros [e He]. discriminate He.
  - intros [e He]. discriminate He.
Qed.

(** C1 fails on the code.  Future sets with the same first failure make
    [wait_all] raise the same error, the one stored in "w3", whatever
    their other entries are: the time-out of "w4" is not in it, nor is the
    value of "w2".  So the raised error can be read neither for every
    failed key nor for the resolved values. *)
Lemma wait_all_drops_later_failures :
  let unreachable := RpcError "unreachable" in
  let d1 := [("w2", Resolved 42%Z); ("w3", Failed unreachable); ("w4", TimedOut)] in
  let d2 := [("w2", Resolved 42%Z); ("w3", Failed unreachable); ("w4", Resolved 7%Z)] in
  failed_entries d1 = [("w3", unreachable); ("w4", RpcTimeout)]
  ∧ failed_entries d2 = [("w3", unreachable)]
  ∧ resolved_entries d1 = [("w2", 42%Z)]
  ∧ resolved_entries d2 = [("w2", 42%Z); ("w4", 7%Z)]
  ∧ wait_all (Keyed d1) []
    = ([EvWait (Resolved 42%Z); EvWait (Failed unreachable)], Raise unreachable)
  ∧ wait_all (Keyed d2) []
    = ([EvWait (Resolved 42%Z); EvWait (Failed unreachable)], Raise unreachable)
  ∧ ¬ raised_error_tells failed_entries
  ∧ ¬ raised_error_tells resolved_entries.
Proof.
  intros unreachable d1 d2.
  assert (Dict.wf d1 ∧ Dict.wf d2) as [Hwf1 Hwf2].
  { unfold Dict.wf, Dict.keys. split; compute_done. }
  split_and!; [reflexivity..| |].
  - intros [report Hreport].
    destruct (Hreport d1 [] Hwf1) as (e1 & He1 & Hr1); [done|].
    destruct (Hreport d2 [] Hwf2) as (e2 & He2 & Hr2); [done|].
    cbv in He1, He2. simplify_eq.
    rewrite Hr1 in Hr2. discriminate Hr2.
  - intros [report Hreport].
    destruct (Hreport d1 [] Hwf1) as (e1 & He1 & Hr1); [done|].
    destruct (Hreport d2 [] Hwf2) as (e2 & He2 & Hr2); [done|].
    cbv in He1, He2. simplify_eq.
    rewrite Hr1 in Hr2. discriminate Hr2.
Qed.

(** The first failure of a future set is what [wait_all] raises. *)
Lemma wait_all_raises_first_failure_witness :
  stored_error (Failed (RpcError "unreachable")) = Some (RpcError "unreachable")
  ∧ wait_all (Keyed [("w2", Resolved 42%Z);
                     ("w3", Failed (RpcError "unreachable"));
                     ("w4", TimedOut)]) []
    = ([EvWait (Resolved 42%Z); EvWait (Failed (RpcError "unreachable"))],
       Raise (RpcError "unreachable")).
Proof.
  split; [reflexivity|].
  apply (wait_all_raises_first_failure (P:=demo_payload) [("w2", 42%Z)] "w3"
           (Failed (RpcError "unreachable")) [("w4", TimedOut)]
           (RpcError "unreachable") []).
  reflexivity.
Defined.

(** On the directory with members, the call on "ps" returns a dictionary
    with the keys "w2" and "w3". *)
Lemma rpc_async_on_role_key_set_witness :
  rpc_async_on_role_from demo_directory "ps" "echo" None None None []
  = ([EvGetRpcTimeout;
      EvRpcAsync "w2" "echo" None None 60%Z;
      EvRpcAsync "w3" "echo" None None 60%Z],
     Ok [("w2", Resolved 42%Z); ("w3", Resolved 42%Z)])
  ∧ ∃ h1 names,
      get_worker_names_from demo_directory "ps" (after_timeout None [])
      = (h1, Ok names)
      ∧ list_to_set (Dict.keys [("w2", Resolved 42%Z); ("w3", Resolved 42%Z)])
        =@{gset string} list_to_set names
      ∧ Dict.wf [("w2", Resolved 42%Z); ("w3", Resolved 42%Z)]
      ∧ (NoDup names →
         Dict.keys [("w2", Resolved 42%Z); ("w3", Resolved 42%Z)] = names
         ∧ length (Dict.items [("w2", Resolved 42%Z); ("w3", Resolved 42%Z)])
           = length names).
Proof.
  split; [reflexivity|].
  exact (proj1 (rpc_async_on_role_key_set (P:=demo_payload) (T:=all_alive))
           demo_directory "ps" "echo" None None None [] _ _ eq_refl).
Defined.

(** On the directory with members, [remote_on_role] and
    [rpc_async_on_role] on "ps" return dictionaries with the same keys. *)
Lemma remote_on_role_same_keys_witness :
  rpc_async_on_role_from demo_directory "ps" "echo" None None (Some 5%Z) []
  = ([EvRpcAsync "w2" "echo" None None 5%Z;
      EvRpcAsync "w3" "echo" None None 5%Z],
     Ok [("w2", Resolved 42%Z); ("w3", Resolved 42%Z)])
  ∧ remote_on_role_from demo_directory "ps" "make" None None []
    = ([EvRemote "w2" "make" None None; EvRemote "w3" "make" None None],
       Ok [("w2", "w2"); ("w3", "w3")])
  ∧ ∃ h1 g1 names names',
      get_worker_names_from demo_directory "ps" (after_timeout (Some 5%Z) [])
      = (h1, Ok names)
      ∧ get_worker_names_from demo_directory "ps" [] = (g1, Ok names')
      ∧ list_to_set (Dict.keys [("w2", Resolved 42%Z); ("w3", Resolved 42%Z)])
        =@{gset string} list_to_set names
      ∧ list_to_set (Dict.keys [("w2", "w2"); ("w3", "w3")])
        =@{gset string} list_to_set names'
      ∧ (names' = names →
         Dict.keys [("w2", "w2"); ("w3", "w3")]
         = Dict.keys [("w2", Resolved 42%Z); ("w3", Resolved 42%Z)]).
Proof.
  split; [reflexivity|]. split; [reflexivity|].
  exact (proj1 (remote_on_role_same_keys (P:=demo_payload) (T:=all_alive))
           demo_directory "ps" "echo" None None (Some 5%Z) "make" None None
           [] _ _ [] _ _ eq_refl eq_refl).
Defined.

(** On the directory with members and without a timeout, the calls to
    "w2" and "w3" carry the 60 seconds the transport answered. *)
Lemma rpc_async_on_role_timeout_witness :
  rpc_timeout_reply [] = Ok 60%Z
  ∧ (0 < 60)%Z
  ∧ get_worker_names_from demo_directory "ps" ([] ++ [EvGetRpcTimeout])
    = ([EvGetRpcTimeout], Ok ["w2"; "w3"])
  ∧ ∃ m, m ≤ length ["w2"; "w3"]
         ∧ run_log (rpc_async_on_role_from demo_directory "ps" "echo"
                      None None None) []
           = [EvGetRpcTimeout]
             ++ ((λ name, EvRpcAsync name "echo" None None 60%Z)
                   <$> take m ["w2"; "w3"])
         ∧ ∀ to f a k t,
             EvRpcAsync to f a k t
               ∈ ((λ name, EvRpcAsync name "echo" None None 60%Z)
                    <$> take m ["w2"; "w3"]) →
             t = 60%Z ∧ (0 < t)%Z.
Proof.
  split; [reflexivity|]. split; [reflexivity|]. split; [reflexivity|].
  exact (proj1 (proj2 (proj2
           (rpc_async_on_role_timeout (P:=demo_payload) (T:=all_alive))))
           (λ t : Z, (0 < t)%Z) demo_directory "ps" "echo" None None
           [] 60%Z [EvGetRpcTimeout] ["w2"; "w3"] eq_refl eq_refl eq_refl).
Defined.

End AllAlive.

Section RpcNotInitialised.
#[local] Existing Instance demo_payload.
#[local] Existing Instance rpc_not_initialised.

(** Before RPC is initialised, a fan-out call without a timeout raises the
    error of [get_rpc_timeout]; with a timeout it returns the empty
    dictionary, there being no worker to call. *)
Lemma rpc_async_on_role_before_init_rpc :
  rpc_async_on_role "ps" "echo" None None None []
  = ([EvGetRpcTimeout], Raise (RpcError "RPC has not been initialized"))
  ∧ rpc_sync_on_role "ps" "echo" None None None []
    = ([EvGetRpcTimeout], Raise (RpcError "RPC has not been initialized"))
  ∧ rpc_async_on_role "ps" "echo" None None (Some 5%Z) []
    = ([], Ok Dict.empty).
Proof. split_and!; reflexivity. Qed.

End RpcNotInitialised.

Section W3Unreachable.
#[local] Existing Instance demo_payload.
#[local] Existing Instance w3_unreachable.

(** The error of the transport at "w3" is the error of the loop. *)
Lemma rpc_async_on_role_dispatch_failure_propagates_witness :
  rpc_async_loop ["w2"] "echo" None None 60%Z Dict.empty []
  = ([EvRpcAsync "w2" "echo" None None 60%Z], Ok [("w2", Resolved 42%Z)])
  ∧ rpc_async_reply [EvRpcAsync "w2" "echo" None None 60%Z]
      "w3" "echo" None None 60%Z
    = Raise (RpcError "unreachable")
  ∧ rpc_async_loop (["w2"] ++ "w3" :: ["w4"]) "echo" None None 60%Z
      Dict.empty []
    = ([EvRpcAsync "w2" "echo" None None 60%Z] ++
       [EvRpcAsync "w3" "echo" None None 60%Z],
       Raise (RpcError "unreachable")).
Proof.
  split; [reflexivity|]. split; [reflexivity|].
  refine (proj1
    (rpc_async_on_role_dispatch_failure_propagates (P:=demo_payload)
       "echo" None None 60%Z
       ["w2"] "w3" [] _ _ _) ["w4"] _ _); reflexivity.
Defined.

End W3Unreachable.

(** ** More on [wait_all] *)

Section WaitAllMore.
Context {P : Payload}.
Implicit Types (h : list event) (d : Dict.t Future) (r acc : Dict.t Value).

(** A loop of waits that got to its end met resolved futures only. *)
Lemma wait_loop_ok_inv (items : list (string * Future)) acc h h' res :
  wait_loop items acc h = (h', Ok res) →
  ∃ r, items = all_resolved r
       ∧ res = foldl (λ acc '(k, v), Dict.set acc k v) acc r
       ∧ h' = h ++ (EvWait <$> items.*2).
Proof.
  revert acc h. induction items as [|[k fut] items IH]; intros acc h Hrun.
  - exists []. cbn in Hrun. injection Hrun as <- <-.
    by rewrite app_nil_r.
  - destruct fut as [v|e|]; cbn [for_in] in Hrun;
      unfold bind, wait, ret in Hrun; [|discriminate..].
    destruct (IH _ _ Hrun) as (r & -> & -> & ->).
    exists ((k, v) :: r). split_and!; [done..|].
    rewrite fmap_cons. cbn [snd]. by rewrite <-app_assoc.
Qed.

(** The waits of the loop are on the futures of the items, in their order,
    from the first one on; all of them when the loop gets to its end. *)
Lemma wait_loop_log_prefix (items : list (string * Future)) acc h :
  ∃ m, m ≤ length items
       ∧ (wait_loop items acc h).1 = h ++ (EvWait <$> take m items.*2)
       ∧ (∀ res, (wait_loop items acc h).2 = Ok res → m = length items).
Proof.
  revert acc h. induction items as [|[k fut] items IH]; intros acc h.
  - exists 0. split_and!; [done | by cbn; rewrite app_nil_r | done].
  - destruct fut as [v|e|]; cbn [for_in]; unfold bind, wait, ret.
    + destruct (IH (Dict.set acc k v) (h ++ [EvWait (Resolved v)]))
        as (m & Hm & Hlog & Hall).
      exists (S m). split_and!; [simpl; lia | |].
      * etrans; [exact Hlog|]. rewrite fmap_cons. cbn [snd take fmap].
        by rewrite <-app_assoc.
      * intros res Hres. simpl. f_equal. by apply (Hall res).
    + exists 1. split_and!; [simpl; lia | by cbn | done].
    + exists 1. split_and!; [simpl; lia | by cbn | done].
Qed.

(** [wait_all] returns exactly on the dictionaries whose futures all
    resolved, and returns the dictionary of their values then: the same
    keys in the same order, each value under the key of its future, after
    one [wait] on every future in the order of the dictionary. *)
Theorem wait_all_returns_iff_all_resolved d h h' res :
  Dict.wf d →
  wait_all (Keyed d) h = (h', Ok res)
  ↔ ∃ r, d = all_resolved r
         ∧ res = KeyedResults r
         ∧ Dict.keys r = Dict.keys d
         ∧ h' = h ++ (EvWait <$> Dict.values d).
Proof.
  intros Hd.
  assert (∀ r, Dict.keys (all_resolved r) = Dict.keys r) as Hkeys.
  { intros r. unfold Dict.keys, all_resolved. rewrite <-list_fmap_compose.
    apply list_fmap_ext. by intros _ [k v] _. }
  split.
  - unfold wait_all. rewrite run_bind.
    destruct (wait_loop (Dict.items d) Dict.empty h) as [h1 [r0|e]] eqn:Hloop;
      [|done].
    unfold ret. intros [= <- <-].
    apply wait_loop_ok_inv in Hloop as (r & Hr & -> & ->).
    unfold Dict.items in Hr. subst d.
    exists r. unfold Dict.wf in Hd. rewrite Hkeys in Hd |- *.
    by rewrite (dict_set_all_fresh r Dict.empty).
  - intros (r & -> & -> & Hk & ->).
    unfold Dict.wf in Hd. rewrite Hkeys in Hd.
    by apply wait_all_keyed_resolved.
Qed.

(** [wait_all] calls nothing but [wait]: on a dictionary it waits on the
    futures in the order of the dictionary, each at most once, from the
    first one on, and on every one of them when it returns; on a list it
    calls nothing at all. *)
Theorem wait_all_only_waits_in_order d (l : list Future) h :
  (∃ m, m ≤ length (Dict.items d)
        ∧ run_log (wait_all (Keyed d)) h
          = h ++ (EvWait <$> take m (Dict.values d))
        ∧ (∀ res, run_result (wait_all (Keyed d)) h = Ok res →
                  m = length (Dict.items d)))
  ∧ run_log (wait_all (Sequence l)) h = h.
Proof.
  split; [|done].
  destruct (wait_loop_log_prefix (Dict.items d) Dict.empty h)
    as (m & Hm & Hlog & Hall).
  exists m. unfold run_log, run_result, wait_all. rewrite run_bind.
  destruct (wait_loop (Dict.items d) Dict.empty h) as [h1 [r0|e]];
    split_and!; try done.
  intros res _. by apply (Hall r0).
Qed.

End WaitAllMore.

(** ** More on the fan-out calls *)

(** Over names that do not repeat, the loop appends one entry per name, in
    the order of the names, holding what [call] answered for that name at
    its turn. *)
Lemma fan_out_entries {P : Payload} {X} (call : string → M X)
    (ev : string → event) names acc h h' d :
  (∀ n h0, (call n h0).1 = h0 ++ [ev n]) →
  NoDup (Dict.keys acc ++ names) →
  fan_out call names acc h = (h', Ok d) →
  ∃ xs, d = acc ++ zip names xs
        ∧ length xs = length names
        ∧ ∀ i n x, names !! i = Some n → xs !! i = Some x →
                   (call n (h ++ (ev <$> take i names))).2 = Ok x.
Proof.
  intros Hcall. revert acc h.
  induction names as [|n names IH]; intros acc h Hnd.
  - cbn. intros [= _ <-]. exists []. by rewrite app_nil_r.
  - unfold fan_out. cbn [for_in]. rewrite !run_bind.
    pose proof (Hcall n h) as Hn.
    destruct (call n h) as [h1 [x|e]] eqn:Hcalln; simpl in Hn; subst h1;
      [|done].
    unfold ret at 1. intros Hrun.
    assert (n ∉ Dict.keys acc) as Hfresh.
    { apply NoDup_app in Hnd as (_ & Hdisj & _). intros Hin.
      apply (Hdisj n Hin). set_solver. }
    rewrite dict_set_fresh in Hrun by done.
    apply IH in Hrun as (xs & -> & Hlen & Hxs).
    + exists (x :: xs). split_and!.
      * by rewrite <-app_assoc.
      * simpl. by rewrite Hlen.
      * intros [|i] n' x' Hn' Hx'; simplify_eq/=.
        -- by rewrite app_nil_r, Hcalln.
        -- replace (h ++ ev n :: (ev <$> take i names))
             with ((h ++ [ev n]) ++ (ev <$> take i names))
             by (by rewrite <-app_assoc).
           by apply Hxs.
    + unfold Dict.keys in *. rewrite fmap_app. simpl.
      by rewrite <-app_assoc.
Qed.

Section FanOutMore.
Context {P : Payload} {T : Transport}.
Implicit Types (h : list event) (role name : string) (func : Func)
  (args : option Args) (kwargs : option Kwargs).

(** Over worker names that do not repeat, the dictionary the loop of
    [rpc_async_on_role] returns pairs each name, in order, with the future
    the transport returned for the call to it, and the loop made exactly
    one [rpc_async] call per name, in order. *)
Theorem rpc_async_on_role_entries names func args kwargs timeout h h' futs :
  NoDup names →
  rpc_async_loop names func args kwargs timeout Dict.empty h = (h', Ok futs) →
  h' = h ++ ((λ name, EvRpcAsync name func args kwargs timeout) <$> names)
  ∧ ∃ replies,
      futs = zip names replies
      ∧ length replies = length names
      ∧ ∀ i name fut,
          names !! i = Some name → replies !! i = Some fut →
          rpc_async_reply
            (h ++ ((λ name, EvRpcAsync name func args kwargs timeout)
                     <$> take i names))
            name func args kwargs timeout
          = Ok fut.
Proof.
  intros Hnd Hrun. split.
  - by apply (fan_out_log_ok (λ n, rpc_async n func args kwargs timeout)
                (λ n, EvRpcAsync n func args kwargs timeout)
                names Dict.empty h h' futs).
  - by apply (fan_out_entries (λ n, rpc_async n func args kwargs timeout)
                (λ n, EvRpcAsync n func args kwargs timeout)
                names Dict.empty h h' futs).
Qed.

(** [remote_on_role] is its loop over the names [get_worker_names]
    reports; the loop, over any list of names, calls [remote] with the
    same function and arguments for each name it reaches, in order, and
    calls nothing else: no timeout is asked for and nothing is waited
    on. *)
Theorem remote_on_role_calls role func args kwargs h :
  (∃ names,
     run_result (get_worker_names role) h = Ok names
     ∧ remote_on_role role func args kwargs h
       = remote_loop names func args kwargs Dict.empty h)
  ∧ (∀ names acc h0,
       ∃ m, m ≤ length names
            ∧ run_log (remote_loop names func args kwargs acc) h0
              = h0 ++ ((λ name, EvRemote name func args kwargs)
                         <$> take m names)).
Proof.
  split.
  - by exists [].
  - intros names acc h0.
    apply (fan_out_log (λ n, remote n func args kwargs)
             (λ n, EvRemote n func args kwargs)).
    done.
Qed.

(** Where the transport raises when asked to create the remote object on a
    member, the loop of [remote_on_role] raises that error: the handles of
    the members before it are lost and no later member is called.  Where
    the transport returns a handle, it is stored under the member's
    name. *)
Theorem remote_on_role_dispatch_failure_propagates
    func args kwargs pre name h h1 rrefs1 :
  remote_loop pre func args kwargs Dict.empty h = (h1, Ok rrefs1) →
  (∀ post e,
     remote_reply h1 name func args kwargs = Raise e →
     remote_loop (pre ++ name :: post) func args kwargs Dict.empty h
     = (h1 ++ [EvRemote name func args kwargs], Raise e))
  ∧ (∀ rref,
       remote_reply h1 name func args kwargs = Ok rref →
       remote_loop (pre ++ [name]) func args kwargs Dict.empty h
       = (h1 ++ [EvRemote name func args kwargs],
          Ok (Dict.set rrefs1 name rref))
       ∧ Dict.get (Dict.set rrefs1 name rref) name = Some rref).
Proof.
  intros Hpre. split.
  - intros post e He.
    apply (fan_out_raise (λ n, remote n func args kwargs)
             pre name post Dict.empty h h1 rrefs1 e Hpre He).
  - intros rref Hrref. split; [|apply dict_get_set_eq].
    apply (fan_out_store (λ n, remote n func args kwargs)
             pre name Dict.empty h h1 rrefs1 rref Hpre Hrref).
Qed.

(** [rpc_sync_on_role] is its body over the names [get_worker_names]
    reports.  Over any list of names, the body calls the workers first, in
    order, and waits afterwards: no [rpc_async] call follows a [wait], and
    a [wait] happens only once every worker was called. *)
Theorem rpc_sync_on_role_calls_before_waits role func args kwargs timeout h :
  (∃ names,
     run_result (get_worker_names role) h = Ok names
     ∧ rpc_sync_on_role role func args kwargs (Some timeout) h
       = rpc_sync_loop names func args kwargs timeout h)
  ∧ (∀ names h0,
       ∃ m waited,
         m ≤ length names
         ∧ run_log (rpc_sync_loop names func args kwargs timeout) h0
           = h0 ++ ((λ name, EvRpcAsync name func args kwargs timeout)
                      <$> take m names)
                ++ (EvWait <$> waited)
         ∧ (waited ≠ [] → m = length names)).
Proof.
  split.
  - by exists [].
  - intros names h0. unfold run_log. rewrite run_bind.
    destruct (rpc_async_loop names func args kwargs timeout Dict.empty h0)
      as [h1 [futs|e]] eqn:Hloop.
    + apply (fan_out_log_ok (λ n, rpc_async n func args kwargs timeout)
               (λ n, EvRpcAsync n func args kwargs timeout)) in Hloop;
        [|done].
      destruct (wait_all_log (Keyed futs) h1) as [ws Hws].
      exists (length names), ws. unfold run_log in Hws.
      rewrite Hws, Hloop, firstn_all, <-app_assoc. done.
    + destruct (fan_out_log (λ n, rpc_async n func args kwargs timeout)
                  (λ n, EvRpcAsync n func args kwargs timeout)
                  names Dict.empty h0) as (m & Hm & Hlog); [done|].
      exists m, []. unfold fan_out in Hlog. rewrite Hloop in Hlog.
      simpl in Hlog. rewrite Hlog. simpl. by rewrite app_nil_r.
Qed.

(** When the workers are named without repetition and every future the
    transport returned resolved, the body of [rpc_sync_on_role] returns
    the values under the worker names, in the order of the names, after
    waiting once on each future. *)
Theorem rpc_sync_on_role_returns_values
    names func args kwargs timeout h h1 (r : Dict.t Value) :
  NoDup names →
  rpc_async_loop names func args kwargs timeout Dict.empty h
  = (h1, Ok (all_resolved r)) →
  rpc_sync_loop names func args kwargs timeout h
  = (h1 ++ (EvWait <$> Dict.values (all_resolved r)), Ok (KeyedResults r))
  ∧ Dict.keys r = names.
Proof.
  intros Hnd Hloop.
  assert (Dict.keys r = names) as Hkeys.
  { pose proof Hloop as Hk.
    apply (fan_out_keys (λ n, rpc_async n func args kwargs timeout)) in Hk.
    pose proof (add_keys_fresh names [] Hnd) as Hfresh. simpl in Hfresh.
    change (Dict.keys Dict.empty) with (@nil string) in Hk.
    rewrite Hfresh in Hk. rewrite <-Hk.
    unfold Dict.keys, all_resolved. rewrite <-list_fmap_compose.
    apply list_fmap_ext. by intros _ [k v] _. }
  split; [|done].
  rewrite run_bind, Hloop. apply wait_all_keyed_resolved.
  unfold Dict.wf. by rewrite Hkeys.
Qed.

(** When the transport raises on a member, the body of [rpc_sync_on_role]
    raises that error without waiting on anything. *)
Theorem rpc_sync_on_role_dispatch_failure
    func args kwargs timeout pre name post h h1 futs1 e :
  rpc_async_loop pre func args kwargs timeout Dict.empty h = (h1, Ok futs1) →
  rpc_async_reply h1 name func args kwargs timeout = Raise e →
  rpc_sync_loop (pre ++ name :: post) func args kwargs timeout h
  = (h1 ++ [EvRpcAsync name func args kwargs timeout], Raise e).
Proof.
  intros Hpre He. rewrite run_bind.
  pose proof (fan_out_raise (λ n, rpc_async n func args kwargs timeout)
                pre name post Dict.empty h h1 futs1 e Hpre He) as Hraise.
  unfold fan_out in Hraise. by rewrite Hraise.
Qed.

(** When every worker was called and the future of one of them failed or
    timed out, those of the workers before it having resolved, the body of
    [rpc_sync_on_role] raises the error stored in that future; it waits on
    no later future and returns no value. *)
Theorem rpc_sync_on_role_raises_first_failure
    names func args kwargs timeout h h1 (r : Dict.t Value) k fut post e :
  rpc_async_loop names func args kwargs timeout Dict.empty h
  = (h1, Ok (all_resolved r ++ (k, fut) :: post)) →
  stored_error fut = Some e →
  rpc_sync_loop names func args kwargs timeout h
  = (h1 ++ (EvWait <$> Dict.values (all_resolved r)) ++ [EvWait fut],
     Raise e).
Proof.
  intros Hloop Hfut. rewrite run_bind, Hloop.
  unfold wait_all. rewrite run_bind.
  by rewrite (wait_loop_first_failure r k fut post e).
Qed.

End FanOutMore.

(** ** [init_rpc] *)

Lemma new_events_app {E} (h evs : list E) : new_events h (h ++ evs) = evs.
Proof. unfold new_events. apply drop_app_length. Qed.

Section InitFacts.
Context {B : Boot} {W : BootWorld}.
Implicit Types (h : list boot_event) (name : string) (backend : Backend)
  (store : Store).

Lemma init_rpc_options name backend opts store h :
  init_rpc name backend opts store h =
    match opts with
    | Some o => init_rpc_with name backend o store h
    | None =>
        match construct_options_reply h backend with
        | inr o =>
            init_rpc_with name backend o store
              (h ++ [EvConstructOptions backend])
        | inl e => (h ++ [EvConstructOptions backend], inl e)
        end
    end.
Proof.
  destruct opts as [o|]; [done|].
  unfold init_rpc, bbind at 1, construct_rpc_backend_options.
  by destruct (construct_options_reply h backend).
Qed.

(** The four ways [init_rpc] goes on from its backend options: no integer
    [RANK], no integer [WORLD_SIZE], autograd not initialised, or the RPC
    backend asked to initialise. *)
Lemma init_rpc_with_cases name backend o store h :
  (∃ e, env_int_fails h "RANK" e
        ∧ init_rpc_with name backend o store h
          = (h ++ [EvGetEnv "RANK"], inl e))
  ∨ (∃ r e, env_int h "RANK" r
            ∧ env_int_fails (h ++ [EvGetEnv "RANK"]) "WORLD_SIZE" e
            ∧ init_rpc_with name backend o store h
              = (h ++ [EvGetEnv "RANK"; EvGetEnv "WORLD_SIZE"], inl e))
  ∨ (∃ r w e, env_int h "RANK" r
              ∧ env_int (h ++ [EvGetEnv "RANK"]) "WORLD_SIZE" w
              ∧ autograd_init_reply
                  (h ++ [EvGetEnv "RANK"; EvGetEnv "WORLD_SIZE"]) r = inl e
              ∧ init_rpc_with name backend o store h
                = (h ++ [EvGetEnv "RANK"; EvGetEnv "WORLD_SIZE";
                         EvAutogradInit r], inl e))
  ∨ (∃ r w, env_int h "RANK" r
            ∧ env_int (h ++ [EvGetEnv "RANK"]) "WORLD_SIZE" w
            ∧ autograd_init_reply
                (h ++ [EvGetEnv "RANK"; EvGetEnv "WORLD_SIZE"]) r = inr ()
            ∧ init_rpc_with name backend o store h
              = (h ++ [EvGetEnv "RANK"; EvGetEnv "WORLD_SIZE";
                       EvAutogradInit r;
                       EvInitRpcBackend backend store name r w o],
                 init_rpc_backend_reply
                   (h ++ [EvGetEnv "RANK"; EvGetEnv "WORLD_SIZE";
                          EvAutogradInit r])
                   backend store name r w o)).
Proof.
  unfold init_rpc_with, env_int, env_int_fails, bbind, bret,
    get_env_variable_or_raise, int, autograd_init, init_rpc_backend.
  destruct (get_env_reply h "RANK") as [e|rank_s] eqn:Hrank.
  { left. exists e. split; [by left | done]. }
  destruct (int_reply rank_s) as [e|r] eqn:Hr.
  { left. exists e. split; [right; by exists rank_s | done]. }
  assert (∃ s, @inr BootExc _ rank_s = inr s ∧ int_reply s = inr r) as Hrk
    by (by exists rank_s).
  destruct (get_env_reply (h ++ [EvGetEnv "RANK"]) "WORLD_SIZE")
    as [e|ws_s] eqn:Hws.
  { right; left. exists r, e. rewrite <-?app_assoc.
    split_and!; [done | by left | done]. }
  destruct (int_reply ws_s) as [e|w] eqn:Hw.
  { right; left. exists r, e. rewrite <-?app_assoc.
    split_and!; [done | right; by exists ws_s | done]. }
  assert (∃ s, @inr BootExc _ ws_s = inr s ∧ int_reply s = inr w) as Hwk
    by (by exists ws_s).
  rewrite <-?app_assoc. simpl.
  destruct (autograd_init_reply
              (h ++ [EvGetEnv "RANK"; EvGetEnv "WORLD_SIZE"]) r)
    as [e|[]] eqn:Hauto.
  { right; right; left. exists r, w, e. by rewrite <-?app_assoc. }
  right; right; right. exists r, w. rewrite <-?app_assoc. simpl.
  split_and!; [done..|].
  by destruct (init_rpc_backend_reply _ backend store name r w o) as [e|[]].
Qed.

Lemma env_int_not_fails h var z e :
  env_int h var z → env_int_fails h var e → False.
Proof.
  intros (s & Hs & Hz) [He|(s' & Hs' & He)]; [congruence|].
  rewrite Hs in Hs'. injection Hs' as <-. congruence.
Qed.

Ltac event_cases H :=
  repeat (apply elem_of_cons in H as [H|H]; [try discriminate H|]);
  try (by apply elem_of_nil in H).

(** The RPC backend is asked to initialise only after autograd was
    initialised, with the same rank.  Whenever [init_rpc] calls
    [_init_rpc_backend], it does so with its own [backend], [store] and
    [name], and by then it has, in this order, constructed default options
    if it was given none, read [RANK] and [WORLD_SIZE] as the integers it
    passes on, and initialised autograd with that rank, successfully. *)
Theorem init_rpc_autograd_before_backend
    name backend opts store h b s n r w o :
  EvInitRpcBackend b s n r w o
    ∈ new_events h (init_rpc name backend opts store h).1 →
  b = backend ∧ s = store ∧ n = name
  ∧ (init_rpc name backend opts store h).1
    = h ++ options_events backend opts
        ++ [EvGetEnv "RANK"; EvGetEnv "WORLD_SIZE"; EvAutogradInit r;
            EvInitRpcBackend backend store name r w o]
  ∧ env_int (h ++ options_events backend opts) "RANK" r
  ∧ env_int (h ++ options_events backend opts ++ [EvGetEnv "RANK"])
      "WORLD_SIZE" w
  ∧ autograd_init_reply
      (h ++ options_events backend opts
         ++ [EvGetEnv "RANK"; EvGetEnv "WORLD_SIZE"]) r
    = inr ().
Proof.
  rewrite init_rpc_options. intros Hin.
  assert (∀ o0 h0,
    EvInitRpcBackend b s n r w o ∈ new_events h0
      (init_rpc_with name backend o0 store h0).1 →
    b = backend ∧ s = store ∧ n = name
    ∧ (init_rpc_with name backend o0 store h0).1
      = h0 ++ [EvGetEnv "RANK"; EvGetEnv "WORLD_SIZE"; EvAutogradInit r;
               EvInitRpcBackend backend store name r w o]
    ∧ env_int h0 "RANK" r
    ∧ env_int (h0 ++ [EvGetEnv "RANK"]) "WORLD_SIZE" w
    ∧ autograd_init_reply
        (h0 ++ [EvGetEnv "RANK"; EvGetEnv "WORLD_SIZE"]) r = inr ())
    as Hwith.
  { intros o0 h0 Hin0.
    destruct (init_rpc_with_cases name backend o0 store h0)
      as [(e & _ & Hrun)|[(r0 & e & _ & _ & Hrun)
         |[(r0 & w0 & e & _ & _ & _ & Hrun)
          |(r0 & w0 & Hr0 & Hw0 & Hauto & Hrun)]]];
      rewrite Hrun in Hin0 |- *; cbn [fst] in Hin0 |- *;
      rewrite new_events_app in Hin0; event_cases Hin0.
    injection Hin0 as -> -> -> -> -> ->. done. }
  destruct opts as [o0|]; cbn [options_events].
  - rewrite app_nil_r. by apply Hwith.
  - destruct (construct_options_reply h backend) as [e|o0].
    + cbn [fst] in Hin. rewrite new_events_app in Hin. event_cases Hin.
    + assert (EvInitRpcBackend b s n r w o ∈ new_events
                (h ++ [EvConstructOptions backend])
                (init_rpc_with name backend o0 store
                   (h ++ [EvConstructOptions backend])).1) as Hin0.
      { destruct (init_rpc_with_cases name backend o0 store
                    (h ++ [EvConstructOptions backend]))
          as [(e & _ & Hrun)|[(r0 & e & _ & _ & Hrun)
             |[(r0 & w0 & e & _ & _ & _ & Hrun)
              |(r0 & w0 & _ & _ & _ & Hrun)]]];
          rewrite Hrun in Hin |- *; cbn [fst] in Hin |- *;
          rewrite <-app_assoc, new_events_app in Hin;
          rewrite new_events_app;
          apply elem_of_cons in Hin as [Hin|Hin]; try discriminate Hin;
          done. }
      apply Hwith in Hin0 as (-> & -> & -> & Hlog & Hr & Hw & Hauto).
      rewrite Hlog. rewrite <-!app_assoc in *. done.
Qed.

(** What the steps after the options leave in the log. *)
Lemma init_rpc_with_summary name backend o store h :
  ∃ evs res,
    init_rpc_with name backend o store h = (h ++ evs, res)
    ∧ (∀ b, EvConstructOptions b ∉ evs)
    ∧ (∀ b s n r w o', EvInitRpcBackend b s n r w o' ∈ evs → o' = o)
    ∧ (∀ u, res = inr u →
         ∃ r w, evs = [EvGetEnv "RANK"; EvGetEnv "WORLD_SIZE";
                       EvAutogradInit r;
                       EvInitRpcBackend backend store name r w o])
    ∧ (∀ var, var = "RANK" ∨ var = "WORLD_SIZE" →
         (∀ h0, ∃ e, env_int_fails h0 var e) →
         (∃ e, res = inl e) ∧ ∀ ev, ev ∈ evs → is_init ev = false).
Proof.
  destruct (init_rpc_with_cases name backend o store h)
    as [(e & He & Hrun)|[(r0 & e & Hr0 & He & Hrun)
       |[(r0 & w0 & e & Hr0 & Hw0 & _ & Hrun)
        |(r0 & w0 & Hr0 & Hw0 & Hauto & Hrun)]]];
    rewrite Hrun; eexists _, _; (split; [reflexivity|]).
  - split_and!.
    + intros b Hin. event_cases Hin.
    + intros b s n r w o' Hin. event_cases Hin.
    + intros u [=].
    + intros var _ _. split; [by eexists|].
      intros ev Hin. event_cases Hin. by subst ev.
  - split_and!.
    + intros b Hin. event_cases Hin.
    + intros b s n r w o' Hin. event_cases Hin.
    + intros u [=].
    + intros var _ _. split; [by eexists|].
      intros ev Hin.
      apply elem_of_cons in Hin as [->|Hin]; [done|].
      apply elem_of_cons in Hin as [->|Hin]; [done|].
      by apply elem_of_nil in Hin.
  - split_and!.
    + intros b Hin. event_cases Hin.
    + intros b s n r w o' Hin. event_cases Hin.
    + intros u [=].
    + intros var [->| ->] Hfails; exfalso.
      * destruct (Hfails h) as [e' He'].
        exact (env_int_not_fails _ _ _ _ Hr0 He').
      * destruct (Hfails (h ++ [EvGetEnv "RANK"])) as [e' He'].
        exact (env_int_not_fails _ _ _ _ Hw0 He').
  - split_and!.
    + intros b Hin. event_cases Hin.
    + intros b s n r w o' Hin. event_cases Hin. by injection Hin.
    + intros u _. by exists r0, w0.
    + intros var [->| ->] Hfails; exfalso.
      * destruct (Hfails h) as [e' He'].
        exact (env_int_not_fails _ _ _ _ Hr0 He').
      * destruct (Hfails (h ++ [EvGetEnv "RANK"])) as [e' He'].
        exact (env_int_not_fails _ _ _ _ Hw0 He').
Qed.

(** [init_rpc] returns only once the RPC backend was initialised: the log
    then ends with the initialisation of autograd and of the backend, with
    one rank, after the reading of [RANK] and [WORLD_SIZE], and every step
    succeeded. *)
Theorem init_rpc_returns_after_both_inits name backend opts store h u :
  (init_rpc name backend opts store h).2 = inr u →
  ∃ r w o,
    (init_rpc name backend opts store h).1
    = h ++ options_events backend opts
        ++ [EvGetEnv "RANK"; EvGetEnv "WORLD_SIZE"; EvAutogradInit r;
            EvInitRpcBackend backend store name r w o]
    ∧ (∀ o', opts = Some o' → o = o')
    ∧ (opts = None → construct_options_reply h backend = inr o).
Proof.
  rewrite init_rpc_options. destruct opts as [o|]; cbn [options_events].
  - destruct (init_rpc_with_summary name backend o store h)
      as (evs & res & Hrun & _ & _ & Hret & _).
    rewrite Hrun. cbn [fst snd]. intros Hres.
    destruct (Hret u Hres) as (r & w & ->).
    exists r, w, o. split_and!; [done | by intros o' [= ->] | done].
  - destruct (construct_options_reply h backend) as [e|o]; [done|].
    destruct (init_rpc_with_summary name backend o store
                (h ++ [EvConstructOptions backend]))
      as (evs & res & Hrun & _ & _ & Hret & _).
    rewrite Hrun. cbn [fst snd]. intros Hres.
    destruct (Hret u Hres) as (r & w & ->).
    exists r, w, o. rewrite <-app_assoc. done.
Qed.

(** Without an integer [RANK], or without an integer [WORLD_SIZE],
    [init_rpc] raises and initialises nothing: neither autograd nor the
    RPC backend is called. *)
Theorem init_rpc_needs_integer_env name backend opts store h var :
  var = "RANK" ∨ var = "WORLD_SIZE" →
  (∀ h0, ∃ e, env_int_fails h0 var e) →
  (∃ e, (init_rpc name backend opts store h).2 = inl e)
  ∧ ∀ ev, ev ∈ new_events h (init_rpc name backend opts store h).1 →
          is_init ev = false.
Proof.
  intros Hvar Hfails. rewrite init_rpc_options.
  destruct opts as [o|].
  - destruct (init_rpc_with_summary name backend o store h)
      as (evs & res & Hrun & _ & _ & _ & Henv).
    rewrite Hrun. cbn [fst snd]. rewrite new_events_app.
    by apply (Henv var).
  - destruct (construct_options_reply h backend) as [e|o].
    + split; [by eexists|]. cbn [fst]. rewrite new_events_app.
      intros ev Hin. event_cases Hin. by subst ev.
    + destruct (init_rpc_with_summary name backend o store
                  (h ++ [EvConstructOptions backend]))
        as (evs & res & Hrun & _ & _ & _ & Henv).
      rewrite Hrun. cbn [fst snd]. rewrite <-app_assoc, new_events_app.
      destruct (Henv var Hvar Hfails) as [Hres Hev].
      split; [done|]. intros ev Hin.
      apply elem_of_cons in Hin as [->|Hin]; [done | by apply Hev].
Qed.

(** Backend options given to [init_rpc] are the ones the RPC backend is
    initialised with, and no default is constructed.  Given none,
    [init_rpc] first constructs the default for its [backend], once: it
    raises at once if that raises, and initialises the RPC backend with
    the constructed options otherwise. *)
Theorem init_rpc_backend_options name backend opts store h :
  (∀ o, opts = Some o →
     (∀ b, EvConstructOptions b
             ∉ new_events h (init_rpc name backend opts store h).1)
     ∧ ∀ b s n r w o',
         EvInitRpcBackend b s n r w o'
           ∈ new_events h (init_rpc name backend opts store h).1 →
         o' = o)
  ∧ (opts = None →
     ∃ rest,
       new_events h (init_rpc name backend opts store h).1
       = EvConstructOptions backend :: rest
       ∧ (∀ b, EvConstructOptions b ∉ rest)
       ∧ (∀ e, construct_options_reply h backend = inl e →
               rest = []
               ∧ (init_rpc name backend opts store h).2 = inl e)
       ∧ (∀ o, construct_options_reply h backend = inr o →
               ∀ b s n r w o',
                 EvInitRpcBackend b s n r w o' ∈ rest → o' = o)).
Proof.
  rewrite init_rpc_options. split.
  - intros o ->.
    destruct (init_rpc_with_summary name backend o store h)
      as (evs & res & Hrun & Hnone & Hopts & _).
    rewrite Hrun. cbn [fst]. by rewrite new_events_app.
  - intros ->.
    destruct (construct_options_reply h backend) as [e|o].
    + exists []. cbn [fst snd]. rewrite new_events_app.
      split_and!; [done | | by intros e' [= ->] | done].
      intros b Hin. by apply elem_of_nil in Hin.
    + destruct (init_rpc_with_summary name backend o store
                  (h ++ [EvConstructOptions backend]))
        as (evs & res & Hrun & Hnone & Hopts & _).
      exists evs. rewrite Hrun. cbn [fst snd].
      rewrite <-app_assoc, new_events_app.
      split_and!; [done | done | done |].
      intros o0 [= <-]. exact Hopts.
Qed.

End InitFacts.

(** ** The other functions on the small deployment *)

Section AllAliveMore.
#[local] Existing Instance demo_payload.
#[local] Existing Instance all_alive.

(** A dictionary of two resolved futures. *)
Lemma wait_all_returns_iff_all_resolved_witness :
  Dict.wf [("w2", Resolved 42%Z); ("w3", Resolved 7%Z)]
  ∧ (wait_all (Keyed [("w2", Resolved 42%Z); ("w3", Resolved 7%Z)]) []
     = ([EvWait (Resolved 42%Z); EvWait (Resolved 7%Z)],
        Ok (KeyedResults [("w2", 42%Z); ("w3", 7%Z)]))
     ↔ ∃ r, [("w2", Resolved 42%Z); ("w3", Resolved 7%Z)] = all_resolved r
            ∧ KeyedResults [("w2", 42%Z); ("w3", 7%Z)] = KeyedResults r
            ∧ Dict.keys r
              = Dict.keys [("w2", Resolved 42%Z); ("w3", Resolved 7%Z)]
            ∧ [EvWait (Resolved 42%Z); EvWait (Resolved 7%Z)]
              = [] ++ (EvWait <$> Dict.values
                         [("w2", Resolved 42%Z); ("w3", Resolved 7%Z)])).
Proof.
  assert (Dict.wf [("w2", @Resolved demo_payload 42%Z);
                   ("w3", Resolved 7%Z)]) as Hwf.
  { unfold Dict.wf, Dict.keys. compute_done. }
  split; [exact Hwf|].
  exact (wait_all_returns_iff_all_resolved (P:=demo_payload)
           [("w2", Resolved 42%Z); ("w3", Resolved 7%Z)] []
           [EvWait (Resolved 42%Z); EvWait (Resolved 7%Z)]
           (KeyedResults [("w2", 42%Z); ("w3", 7%Z)]) Hwf).
Defined.

(** Calling "w2" and "w3": the futures under the names. *)
Lemma rpc_async_on_role_entries_witness :
  NoDup ["w2"; "w3"]
  ∧ rpc_async_loop ["w2"; "w3"] "echo" None None 60%Z Dict.empty []
    = ([EvRpcAsync "w2" "echo" None None 60%Z;
        EvRpcAsync "w3" "echo" None None 60%Z],
       Ok [("w2", Resolved 42%Z); ("w3", Resolved 42%Z)])
  ∧ ∃ replies,
      [("w2", Resolved 42%Z); ("w3", Resolved 42%Z)] = zip ["w2"; "w3"] replies
      ∧ length replies = 2.
Proof.
  assert (NoDup ["w2"; "w3"]) as Hnd by compute_done.
  split; [exact Hnd|]. split; [reflexivity|].
  destruct (rpc_async_on_role_entries (P:=demo_payload) (T:=all_alive)
              ["w2"; "w3"] "echo" None None 60%Z [] _ _ Hnd eq_refl)
    as (_ & replies & Hzip & Hlen & _).
  by exists replies.
Defined.

(** The sync call on "w2" and "w3": the values under the names. *)
Lemma rpc_sync_on_role_returns_values_witness :
  NoDup ["w2"; "w3"]
  ∧ rpc_async_loop ["w2"; "w3"] "echo" None None 60%Z Dict.empty []
    = ([EvRpcAsync "w2" "echo" None None 60%Z;
        EvRpcAsync "w3" "echo" None None 60%Z],
       Ok (all_resolved [("w2", 42%Z); ("w3", 42%Z)]))
  ∧ rpc_sync_loop ["w2"; "w3"] "echo" None None 60%Z []
    = ([EvRpcAsync "w2" "echo" None None 60%Z;
        EvRpcAsync "w3" "echo" None None 60%Z]
       ++ (EvWait <$> Dict.values (all_resolved [("w2", 42%Z); ("w3", 42%Z)])),
       Ok (KeyedResults [("w2", 42%Z); ("w3", 42%Z)]))
  ∧ Dict.keys [("w2", 42%Z); ("w3", 42%Z)] = ["w2"; "w3"].
Proof.
  assert (NoDup ["w2"; "w3"]) as Hnd by compute_done.
  split; [exact Hnd|]. split; [reflexivity|].
  exact (rpc_sync_on_role_returns_values (P:=demo_payload) (T:=all_alive)
           ["w2"; "w3"] "echo" None None 60%Z [] _
           [("w2", 42%Z); ("w3", 42%Z)] Hnd eq_refl).
Defined.

End AllAliveMore.

Section W3UnreachableMore.
#[local] Existing Instance demo_payload.
#[local] Existing Instance w3_unreachable.

(** Creating the remote object on "w3" raises. *)
Lemma remote_on_role_dispatch_failure_propagates_witness :
  remote_loop ["w2"] "make" None None Dict.empty []
  = ([EvRemote "w2" "make" None None], Ok [("w2", "w2")])
  ∧ remote_reply [EvRemote "w2" "make" None None] "w3" "make" None None
    = Raise (RpcError "unreachable")
  ∧ remote_loop (["w2"] ++ "w3" :: ["w4"]) "make" None None Dict.empty []
    = ([EvRemote "w2" "make" None None] ++ [EvRemote "w3" "make" None None],
       Raise (RpcError "unreachable")).
Proof.
  split; [reflexivity|]. split; [reflexivity|].
  refine (proj1
    (remote_on_role_dispatch_failure_propagates (P:=demo_payload)
       "make" None None ["w2"] "w3" [] _ _ _) ["w4"] _ _); reflexivity.
Defined.

(** The sync call with "w3" unreachable raises before any wait. *)
Lemma rpc_sync_on_role_dispatch_failure_witness :
  rpc_async_loop ["w2"] "echo" None None 60%Z Dict.empty []
  = ([EvRpcAsync "w2" "echo" None None 60%Z], Ok [("w2", Resolved 42%Z)])
  ∧ rpc_async_reply [EvRpcAsync "w2" "echo" None None 60%Z]
      "w3" "echo" None None 60%Z
    = Raise (RpcError "unreachable")
  ∧ rpc_sync_loop (["w2"] ++ "w3" :: ["w4"]) "echo" None None 60%Z []
    = ([EvRpcAsync "w2" "echo" None None 60%Z]
       ++ [EvRpcAsync "w3" "echo" None None 60%Z],
       Raise (RpcError "unreachable")).
Proof.
  split; [reflexivity|]. split; [reflexivity|].
  exact (rpc_sync_on_role_dispatch_failure (P:=demo_payload)
           "echo" None None 60%Z ["w2"] "w3" ["w4"] [] _ _ _
           eq_refl eq_refl).
Defined.

End W3UnreachableMore.

Section W3FailsMore.
#[local] Existing Instance demo_payload.
#[local] Existing Instance w3_fails.

(** The sync call with the call to "w3" failing raises its error after
    waiting on "w2" and "w3", not on "w4". *)
Lemma rpc_sync_on_role_raises_first_failure_witness :
  rpc_async_loop ["w2"; "w3"; "w4"] "echo" None None 60%Z Dict.empty []
  = ([EvRpcAsync "w2" "echo" None None 60%Z;
      EvRpcAsync "w3" "echo" None None 60%Z;
      EvRpcAsync "w4" "echo" None None 60%Z],
     Ok (all_resolved [("w2", 42%Z)]
         ++ ("w3", Failed (RpcError "unreachable"))
            :: [("w4", Resolved 42%Z)]))
  ∧ stored_error (Failed (RpcError "unreachable"))
    = Some (RpcError "unreachable")
  ∧ rpc_sync_loop ["w2"; "w3"; "w4"] "echo" None None 60%Z []
    = ([EvRpcAsync "w2" "echo" None None 60%Z;
        EvRpcAsync "w3" "echo" None None 60%Z;
        EvRpcAsync "w4" "echo" None None 60%Z]
       ++ (EvWait <$> Dict.values (all_resolved [("w2", 42%Z)]))
       ++ [EvWait (Failed (RpcError "unreachable"))],
       Raise (RpcError "unreachable")).
Proof.
  split; [reflexivity|]. split; [reflexivity|].
  exact (rpc_sync_on_role_raises_first_failure (P:=demo_payload)
           (T:=w3_fails) ["w2"; "w3"; "w4"] "echo" None None 60%Z [] _
           [("w2", 42%Z)] "w3" (Failed (RpcError "unreachable"))
           [("w4", Resolved 42%Z)] (RpcError "unreachable")
           eq_refl eq_refl).
Defined.

End W3FailsMore.

Section Rank0Of4.
#[local] Existing Instance demo_boot.
#[local] Existing Instance rank0_of_4.

(** Rank 0 of 4, no options given: the RPC backend is initialised last. *)
Lemma init_rpc_autograd_before_backend_witness :
  EvInitRpcBackend "PROCESS_GROUP" "store" "w0" 0 4 "default options"
    ∈ new_events [] (init_rpc "w0" "PROCESS_GROUP" None "store" []).1
  ∧ (init_rpc "w0" "PROCESS_GROUP" None "store" []).1
    = [] ++ options_events "PROCESS_GROUP" None
         ++ [EvGetEnv "RANK"; EvGetEnv "WORLD_SIZE"; EvAutogradInit 0;
             EvInitRpcBackend "PROCESS_GROUP" "store" "w0" 0 4
               "default options"].
Proof.
  assert (EvInitRpcBackend "PROCESS_GROUP" "store" "w0" 0 4 "default options"
            ∈ new_events []
                (init_rpc (B:=demo_boot) (W:=rank0_of_4)
                   "w0" "PROCESS_GROUP" None "store" []).1) as Hin.
  { apply list_elem_of_In. vm_compute. do 4 right. by left. }
  split; [exact Hin|].
  exact (proj1 (proj2 (proj2 (proj2
    (init_rpc_autograd_before_backend (B:=demo_boot) (W:=rank0_of_4)
       "w0" "PROCESS_GROUP" None "store" []
       "PROCESS_GROUP" "store" "w0" 0%Z 4%Z "default options" Hin))))).
Defined.

(** Rank 0 of 4, options given: [init_rpc] returns. *)
Lemma init_rpc_returns_after_both_inits_witness :
  (init_rpc "w0" "PROCESS_GROUP" (Some "my options") "store" []).2 = inr ()
  ∧ ∃ r w o,
      (init_rpc "w0" "PROCESS_GROUP" (Some "my options") "store" []).1
      = [] ++ options_events "PROCESS_GROUP" (Some "my options")
           ++ [EvGetEnv "RANK"; EvGetEnv "WORLD_SIZE"; EvAutogradInit r;
               EvInitRpcBackend "PROCESS_GROUP" "store" "w0" r w o]
      ∧ (∀ o', Some "my options" = Some o' → o = o')
      ∧ (Some "my options" = None →
         construct_options_reply [] "PROCESS_GROUP" = inr o).
Proof.
  split; [reflexivity|].
  exact (init_rpc_returns_after_both_inits (B:=demo_boot) (W:=rank0_of_4)
           "w0" "PROCESS_GROUP" (Some "my options") "store" [] () eq_refl).
Defined.

End Rank0Of4.

Section NoWorldSize.
#[local] Existing Instance demo_boot.
#[local] Existing Instance no_world_size.

(** [WORLD_SIZE] not set: [init_rpc] raises after reading [RANK] and
    [WORLD_SIZE], and initialises nothing. *)
Lemma init_rpc_needs_integer_env_witness :
  ("WORLD_SIZE" = "RANK" ∨ "WORLD_SIZE" = "WORLD_SIZE")
  ∧ (∀ h0, ∃ e, env_int_fails h0 "WORLD_SIZE" e)
  ∧ (∃ e, (init_rpc "w0" "PROCESS_GROUP" (Some "my options") "store" []).2
          = inl e)
  ∧ ∀ ev,
      ev ∈ new_events []
             (init_rpc "w0" "PROCESS_GROUP" (Some "my options") "store" []).1 →
      is_init ev = false.
Proof.
  assert (∀ h0, ∃ e, env_int_fails (B:=demo_boot) (W:=no_world_size)
                       h0 "WORLD_SIZE" e) as Hfails.
  { intros h0. exists "not set". by left. }
  split; [by right|]. split; [exact Hfails|].
  exact (init_rpc_needs_integer_env (B:=demo_boot) (W:=no_world_size)
           "w0" "PROCESS_GROUP" (Some "my options") "store" [] "WORLD_SIZE"
           (or_intror eq_refl) Hfails).
Defined.

End NoWorldSize.
